(** * Turtle Adventure: the entity simulation of [turtle_adventure.py]

    A shallow embedding of the player, the enemy variants, the enemy
    generator and the win/lose transitions of [TurtleAdventureGame].

    Numbers.  Python [int]s are [Z].  Python [float]s are idealised to the
    real numbers [R]: [+], [-], [*], [/], the comparisons and [math.sin],
    [math.cos], [math.atan2] are taken exact, so rounding, infinities and
    NaN are outside the model.  Coordinates are [R]; an [int] stored in a
    coordinate is injected with [IZR].  Every statement below about
    coordinates, distances and boundary tests is a statement of this exact
    arithmetic.  Where rounding decides the outcome the binary64 run can
    differ: module [Doubles] renders the boundary block of
    [SinEnemy.update] on IEEE doubles and exhibits such a run.

    Effects.  Methods that touch the game object are computations in a
    state monad over [Game].  Calls into the collaborators that are not
    part of the module (the [stop] of the game loop, [canvas.create_text],
    the [after] timer, [add_element]) are recorded in the game state. *)

From Stdlib Require Import Reals Lra Lia ZArith List String Bool Psatz.
From Stdlib Require PrimFloat.
Import ListNotations.
Local Open Scope R_scope.

(** ** Python's [math] and [random] modules, over the reals *)

Module Py.

(** [a < b], [a <= b], [a >= b] as Python booleans. *)
Definition ltb (a b : R) : bool := if Rlt_dec a b then true else false.
Definition leb (a b : R) : bool := if Rle_dec a b then true else false.
Definition gtb (a b : R) : bool := ltb b a.
Definition geb (a b : R) : bool := leb b a.

(** [math.radians] and [math.degrees]. *)
Definition radians (d : R) : R := d * (PI / 180).
Definition degrees (r : R) : R := r * (180 / PI).

(** [x % m] on floats, for a positive modulus: the result has the sign
    of [m], that is [x - m * floor (x / m)]. *)
Definition fmod (x m : R) : R := x - m * IZR (Int_part (x / m)).

(** [math.atan2 y x], with [atan2 0 0 = 0]. *)
Definition atan2 (y x : R) : R :=
  if Rlt_dec 0 x then atan (y / x)
  else if Rlt_dec x 0 then
    (if Rle_dec 0 y then atan (y / x) + PI else atan (y / x) - PI)
  else if Rlt_dec 0 y then PI / 2
  else if Rlt_dec y 0 then - (PI / 2)
  else 0.

(** [random.randint a b] applied to one raw draw [r] of the generator:
    an integer of [a..b], both ends included, when [a <= b].  For [b < a]
    Python raises [ValueError]; the exception is not modelled, and the
    value given here for [b < a] stands for no run of the program (the
    only call whose bound is not a literal is
    [randint(0, self.game.screen_width)], so this concerns arenas of
    negative width only). *)
Definition randint_of (a b r : Z) : Z := (a + r mod (b - a + 1))%Z.

End Py.

(** ** The turtle of Python's [turtle] module

    Only what [Player] uses: the position, the heading in degrees, and
    [towards], [setheading], [forward], [distance] at their documented
    meaning ([towards] is the angle of the line from the turtle to the
    point, reduced modulo 360; [forward] moves along the heading;
    [distance] is Euclidean).  The rounding of the angle that the library
    performs on floats is part of the float arithmetic left out of the
    model. *)

Module Turtle.

Record t : Type := mk { xcor : R; ycor : R; heading : R }.

Definition towards (self : t) (x y : R) : R :=
  Py.fmod (Py.degrees (Py.atan2 (y - ycor self) (x - xcor self))) 360.

Definition setheading (self : t) (to_angle : R) : t :=
  mk (xcor self) (ycor self) to_angle.

Definition forward (self : t) (distance : R) : t :=
  mk (xcor self + distance * cos (Py.radians (heading self)))
     (ycor self + distance * sin (Py.radians (heading self)))
     (heading self).

Definition distance (self : t) (x y : R) : R :=
  sqrt ((x - xcor self) * (x - xcor self) + (y - ycor self) * (y - ycor self)).

Definition setx (self : t) (val : R) : t := mk val (ycor self) (heading self).
Definition sety (self : t) (val : R) : t := mk (xcor self) val (heading self).

End Turtle.

(** ** The objects of the game *)

(** [Waypoint]: position and the [__active] flag. *)
Record WaypointT : Type := mkWaypoint {
  wp_x : R;
  wp_y : R;
  wp_active : bool
}.

(** [Home]: position and [__size]. *)
Record HomeT : Type := mkHome {
  home_x : R;
  home_y : R;
  home_size : Z
}.

(** [Player]: the turtle that carries its position, and [__speed]. *)
Record PlayerT : Type := mkPlayer {
  p_turtle : Turtle.t;
  p_speed : R
}.

(** [Enemy]: the position of the game element, [__size] and [__color]. *)
Record EnemyT : Type := mkEnemy {
  e_x : R;
  e_y : R;
  e_size : Z;
  e_color : string
}.

Record DemoEnemyT : Type := mkDemoEnemy {
  demo_base :> EnemyT;
  demo_direction : Z
}.

Record RandomWalkEnemyT : Type := mkRandomWalkEnemy {
  rw_base :> EnemyT;
  rw_speed : R;
  rw_direction : Z
}.

Record ChasingEnemyT : Type := mkChasingEnemy {
  ch_base :> EnemyT;
  ch_speed : R
}.

Record FencingEnemyT : Type := mkFencingEnemy {
  fe_base :> EnemyT;
  fe_directions : list (Z * Z);
  fe_current_direction_index : Z;
  fe_home_x : R;
  fe_home_y : R;
  fe_offset : R;
  fe_speed : R
}.

Record SinEnemyT : Type := mkSinEnemy {
  sin_base :> EnemyT;
  sin_amplitude : R;
  sin_frequency : R;
  sin_speed : R;
  sin_angle : R
}.

(** The elements the generator adds to the game. *)
Inductive Element : Type :=
| ElDemo (e : DemoEnemyT)
| ElRandomWalk (e : RandomWalkEnemyT)
| ElChasing (e : ChasingEnemyT)
| ElFencing (e : FencingEnemyT)
| ElSin (e : SinEnemyT).

(** [EnemyGenerator]: the two counters. *)
Record EnemyGeneratorT : Type := mkEnemyGenerator {
  gen_level : Z;
  fencing_enemy_count : Z;
  sin_enemy_count : Z
}.

(** What the game asks of its collaborators, in call order. *)
Inductive Effect : Type :=
| Stop
| CreateText (x y : R) (text : string) (font : string * Z * string)
             (fill : string).

(** [TurtleAdventureGame].  [elements] are the elements added by the
    generator, oldest first; [scheduled] are the delays of the
    [create_enemy] callbacks registered with [after] and not fired yet;
    [entropy] is the stream of raw draws behind [random] and [draws] the
    number of draws consumed. *)
Record Game : Type := mkGame {
  level : Z;
  screen_width : Z;
  screen_height : Z;
  waypoint : WaypointT;
  player : PlayerT;
  home : HomeT;
  elements : list Element;
  enemy_generator : EnemyGeneratorT;
  is_running : bool;
  effects : list Effect;
  scheduled : list Z;
  entropy : nat -> Z;
  draws : nat
}.

(** ** The state monad of the game *)

Definition M (A : Type) : Type := Game -> A * Game.

Definition ret {A : Type} (a : A) : M A := fun g => (a, g).

Definition bind {A B : Type} (c : M A) (k : A -> M B) : M B :=
  fun g => let (a, g') := c g in k a g'.

Definition get : M Game := fun g => (g, g).

Definition modify (f : Game -> Game) : M unit := fun g => (tt, f g).

Definition when (b : bool) (c : M unit) : M unit := if b then c else ret tt.

Definition exec {A : Type} (c : M A) (g : Game) : Game := snd (c g).
Definition eval {A : Type} (c : M A) (g : Game) : A := fst (c g).

Declare Scope game_scope.
Delimit Scope game_scope with game.
Notation "x <- c ;; k" := (bind c (fun x => k))
  (at level 61, c at next level, right associativity) : game_scope.
Notation "c ;; k" := (bind c (fun _ => k))
  (at level 61, right associativity) : game_scope.
Local Open Scope game_scope.

(** Field updates of [Game]. *)
Definition with_waypoint (w : WaypointT) (g : Game) : Game :=
  mkGame (level g) (screen_width g) (screen_height g) w (player g) (home g)
         (elements g) (enemy_generator g) (is_running g) (effects g)
         (scheduled g) (entropy g) (draws g).

Definition with_player (p : PlayerT) (g : Game) : Game :=
  mkGame (level g) (screen_width g) (screen_height g) (waypoint g) p (home g)
         (elements g) (enemy_generator g) (is_running g) (effects g)
         (scheduled g) (entropy g) (draws g).

Definition with_elements (l : list Element) (g : Game) : Game :=
  mkGame (level g) (screen_width g) (screen_height g) (waypoint g) (player g)
         (home g) l (enemy_generator g) (is_running g) (effects g)
         (scheduled g) (entropy g) (draws g).

Definition with_enemy_generator (e : EnemyGeneratorT) (g : Game) : Game :=
  mkGame (level g) (screen_width g) (screen_height g) (waypoint g) (player g)
         (home g) (elements g) e (is_running g) (effects g)
         (scheduled g) (entropy g) (draws g).

Definition with_is_running (b : bool) (g : Game) : Game :=
  mkGame (level g) (screen_width g) (screen_height g) (waypoint g) (player g)
         (home g) (elements g) (enemy_generator g) b (effects g)
         (scheduled g) (entropy g) (draws g).

Definition with_effects (l : list Effect) (g : Game) : Game :=
  mkGame (level g) (screen_width g) (screen_height g) (waypoint g) (player g)
         (home g) (elements g) (enemy_generator g) (is_running g) l
         (scheduled g) (entropy g) (draws g).

Definition with_scheduled (l : list Z) (g : Game) : Game :=
  mkGame (level g) (screen_width g) (screen_height g) (waypoint g) (player g)
         (home g) (elements g) (enemy_generator g) (is_running g) (effects g)
         l (entropy g) (draws g).

Definition with_draws (n : nat) (g : Game) : Game :=
  mkGame (level g) (screen_width g) (screen_height g) (waypoint g) (player g)
         (home g) (elements g) (enemy_generator g) (is_running g) (effects g)
         (scheduled g) (entropy g) n.

(** [random.randint a b]: consumes one raw draw. *)
Definition randint (a b : Z) : M Z :=
  fun g => (Py.randint_of a b (entropy g (draws g)), with_draws (S (draws g)) g).

(** ** [TurtleAdventureGame] *)

Module TurtleAdventureGame.

(** Modelled from the spec: [Game.stop] of [gamelib], which is not part
    of the module.  A win or loss signal "halts all further entity
    updates": the game leaves the running state.  The call itself is
    recorded in [effects]. *)
Definition stop : M unit :=
  modify (fun g => with_effects (effects g ++ [Stop]) (with_is_running false g)).

(** [self.canvas.create_text(x, y, text=..., font=..., fill=...)]. *)
Definition create_text (x y : R) (text : string) (font : string * Z * string)
    (fill : string) : M unit :=
  modify (fun g => with_effects (effects g ++ [CreateText x y text font fill]) g).

(** [self.add_element(e)]: the element joins the game. *)
Definition add_element (e : Element) : M unit :=
  modify (fun g => with_elements (elements g ++ [e]) g).

(** [self.after(delay, generator.create_enemy)]. *)
Definition after (delay : Z) : M unit :=
  modify (fun g => with_scheduled (scheduled g ++ [delay]) g).

Definition game_over_win : M unit :=
  stop ;;
  let font := ("Arial"%string, 36%Z, "bold"%string) in
  g <- get ;;
  create_text (IZR (screen_width g) / 2) (IZR (screen_height g) / 2)
              "You Win" font "green".

Definition game_over_lose : M unit :=
  stop ;;
  let font := ("Arial"%string, 36%Z, "bold"%string) in
  g <- get ;;
  create_text (IZR (screen_width g) / 2) (IZR (screen_height g) / 2)
              "You Lose" font "red".

End TurtleAdventureGame.

(** ** [Waypoint] *)

Module Waypoint.

Definition activate (self : WaypointT) (x y : R) : WaypointT :=
  mkWaypoint x y true.

Definition deactivate (self : WaypointT) : WaypointT :=
  mkWaypoint (wp_x self) (wp_y self) false.

Definition is_active (self : WaypointT) : bool := wp_active self.

End Waypoint.

(** ** [Home] *)

Module Home.

Definition size (self : HomeT) : Z := home_size self.

(** [x1 <= x <= x2 and y1 <= y <= y2] *)
Definition contains (self : HomeT) (x y : R) : bool :=
  let x1 := home_x self - IZR (size self) / 2 in
  let x2 := home_x self + IZR (size self) / 2 in
  let y1 := home_y self - IZR (size self) / 2 in
  let y2 := home_y self + IZR (size self) / 2 in
  (Py.leb x1 x && Py.leb x x2) && (Py.leb y1 y && Py.leb y y2).

End Home.

(** ** [Player] *)

Module Player.

Definition x (self : PlayerT) : R := Turtle.xcor (p_turtle self).
Definition y (self : PlayerT) : R := Turtle.ycor (p_turtle self).
Definition speed (self : PlayerT) : R := p_speed self.

Definition set_x (val : R) (self : PlayerT) : PlayerT :=
  mkPlayer (Turtle.setx (p_turtle self) val) (p_speed self).
Definition set_y (val : R) (self : PlayerT) : PlayerT :=
  mkPlayer (Turtle.sety (p_turtle self) val) (p_speed self).

(** A call of a turtle method on [self.__turtle]. *)
Definition on_turtle (f : Turtle.t -> Turtle.t) : M unit :=
  modify (fun g =>
    with_player (mkPlayer (f (p_turtle (player g))) (p_speed (player g))) g).

Definition update : M unit :=
  g <- get ;;
  (* check if player has arrived home *)
  when (Home.contains (home g) (x (player g)) (y (player g)))
       TurtleAdventureGame.game_over_win ;;
  g <- get ;;
  let wp := waypoint g in
  if Waypoint.is_active wp then
    on_turtle (fun t => Turtle.setheading t (Turtle.towards t (wp_x wp) (wp_y wp))) ;;
    on_turtle (fun t => Turtle.forward t (speed (player g))) ;;
    g' <- get ;;
    when (Py.ltb (Turtle.distance (p_turtle (player g')) (wp_x wp) (wp_y wp))
                 (speed (player g')))
         (modify (fun g => with_waypoint (Waypoint.deactivate (waypoint g)) g))
  else ret tt.

End Player.

(** ** [Enemy] *)

Module Enemy.

(** A new game element is taken to start at the origin, the default of
    [GameElement.__init__] in [gamelib]; every enemy built by the
    generator is assigned a position before it is used. *)
Definition init (size : Z) (color : string) : EnemyT :=
  mkEnemy 0 0 size color.

Definition set_x (val : R) (self : EnemyT) : EnemyT :=
  mkEnemy val (e_y self) (e_size self) (e_color self).
Definition set_y (val : R) (self : EnemyT) : EnemyT :=
  mkEnemy (e_x self) val (e_size self) (e_color self).

(** [self.size / 2] *)
Definition half (self : EnemyT) : R := IZR (e_size self) / 2.

Definition hits_player (self : EnemyT) (g : Game) : bool :=
  (Py.ltb (e_x self - half self) (Player.x (player g))
     && Py.ltb (Player.x (player g)) (e_x self + half self))
  && (Py.ltb (e_y self - half self) (Player.y (player g))
     && Py.ltb (Player.y (player g)) (e_y self + half self)).

End Enemy.

Module DemoEnemy.

Definition init (size : Z) (color : string) : DemoEnemyT :=
  mkDemoEnemy (Enemy.init size color) 1.

Definition set_x (val : R) (self : DemoEnemyT) : DemoEnemyT :=
  mkDemoEnemy (Enemy.set_x val self) (demo_direction self).
Definition set_y (val : R) (self : DemoEnemyT) : DemoEnemyT :=
  mkDemoEnemy (Enemy.set_y val self) (demo_direction self).
Definition set_direction (val : Z) (self : DemoEnemyT) : DemoEnemyT :=
  mkDemoEnemy self val.

Definition update (self : DemoEnemyT) : M DemoEnemyT :=
  g <- get ;;
  let self := set_x (e_x self + 1) self in
  let self := set_y (e_y self + 1) self in
  let self :=
    if Py.geb (e_x self) (IZR (screen_width g)) || Py.leb (e_x self) 0
    then set_direction (demo_direction self * -1) self else self in
  let self :=
    if Py.geb (e_y self) (IZR (screen_height g)) || Py.leb (e_y self) 0
    then set_direction (demo_direction self * -1) self else self in
  when (Enemy.hits_player self g) TurtleAdventureGame.game_over_lose ;;
  ret self.

End DemoEnemy.

Module RandomWalkEnemy.

Definition init (size : Z) (color : string) (speed : R) : M RandomWalkEnemyT :=
  direction <- randint 0 360 ;;
  ret (mkRandomWalkEnemy (Enemy.init size color) speed direction).

Definition set_x (val : R) (self : RandomWalkEnemyT) : RandomWalkEnemyT :=
  mkRandomWalkEnemy (Enemy.set_x val self) (rw_speed self) (rw_direction self).
Definition set_y (val : R) (self : RandomWalkEnemyT) : RandomWalkEnemyT :=
  mkRandomWalkEnemy (Enemy.set_y val self) (rw_speed self) (rw_direction self).
Definition set_direction (val : Z) (self : RandomWalkEnemyT) : RandomWalkEnemyT :=
  mkRandomWalkEnemy self (rw_speed self) val.

(** The two moves that open [update].  [math.cos], [math.sin] and
    [math.radians] are the exact functions here: the displacement is the
    real [speed * cos direction], not its binary64 rounding. *)
Definition move (self : RandomWalkEnemyT) : RandomWalkEnemyT :=
  let self :=
    set_x (e_x self + rw_speed self * cos (Py.radians (IZR (rw_direction self)))) self in
  set_y (e_y self + rw_speed self * sin (Py.radians (IZR (rw_direction self)))) self.

(** The [# horizontal frame] block. *)
Definition horizontal_frame (g : Game) (self : RandomWalkEnemyT) : RandomWalkEnemyT :=
  if Py.geb (e_x self + Enemy.half self) (IZR (screen_width g))
     || Py.leb (e_x self - Enemy.half self) 0
  then
    let self := set_direction (180 - rw_direction self) self in
    if Py.geb (e_x self + Enemy.half self) (IZR (screen_width g))
    then set_x (IZR (screen_width g) - Enemy.half self) self
    else if Py.leb (e_x self - Enemy.half self) 0
    then set_x (Enemy.half self) self
    else self
  else self.

(** The [# vertical frame] block. *)
Definition vertical_frame (g : Game) (self : RandomWalkEnemyT) : RandomWalkEnemyT :=
  if Py.geb (e_y self + Enemy.half self) (IZR (screen_height g))
     || Py.leb (e_y self - Enemy.half self) 0
  then
    let self := set_direction (- rw_direction self) self in
    if Py.geb (e_y self + Enemy.half self) (IZR (screen_height g))
    then set_y (IZR (screen_height g) - Enemy.half self) self
    else if Py.leb (e_y self - Enemy.half self) 0
    then set_y (Enemy.half self) self
    else self
  else self.

Definition update (self : RandomWalkEnemyT) : M RandomWalkEnemyT :=
  g <- get ;;
  let self := move self in
  let self := horizontal_frame g self in
  let self := vertical_frame g self in
  when (Enemy.hits_player self g) TurtleAdventureGame.game_over_lose ;;
  ret self.

End RandomWalkEnemy.

Module ChasingEnemy.

Definition init (size : Z) (color : string) (speed : R) : ChasingEnemyT :=
  mkChasingEnemy (Enemy.init size color) speed.

Definition set_x (val : R) (self : ChasingEnemyT) : ChasingEnemyT :=
  mkChasingEnemy (Enemy.set_x val self) (ch_speed self).
Definition set_y (val : R) (self : ChasingEnemyT) : ChasingEnemyT :=
  mkChasingEnemy (Enemy.set_y val self) (ch_speed self).

(** The pursuit step: bearing to the player, then one move along it. *)
Definition move (g : Game) (self : ChasingEnemyT) : ChasingEnemyT :=
  let player_x := Player.x (player g) in
  let player_y := Player.y (player g) in
  let direction := Py.atan2 (player_y - e_y self) (player_x - e_x self) in
  let self := set_x (e_x self + cos direction * ch_speed self) self in
  set_y (e_y self + sin direction * ch_speed self) self.

(** The boundary block: clamp [x], then clamp [y].  The strict tests
    compare exact sums; on doubles [x + size / 2] is rounded before it is
    compared, see [Doubles]. *)
Definition clamp (g : Game) (self : ChasingEnemyT) : ChasingEnemyT :=
  let self :=
    if Py.ltb (e_x self - Enemy.half self) 0
    then set_x (Enemy.half self) self
    else if Py.gtb (e_x self + Enemy.half self) (IZR (screen_width g))
    then set_x (IZR (screen_width g) - Enemy.half self) self
    else self in
  if Py.ltb (e_y self - Enemy.half self) 0
  then set_y (Enemy.half self) self
  else if Py.gtb (e_y self + Enemy.half self) (IZR (screen_height g))
  then set_y (IZR (screen_height g) - Enemy.half self) self
  else self.

Definition update (self : ChasingEnemyT) : M ChasingEnemyT :=
  g <- get ;;
  let self := move g self in
  let self := clamp g self in
  when (Enemy.hits_player self g) TurtleAdventureGame.game_over_lose ;;
  ret self.

End ChasingEnemy.

Module FencingEnemy.

Definition HOME_OFFSET : Z := 20.

Definition set_x (val : R) (self : FencingEnemyT) : FencingEnemyT :=
  mkFencingEnemy (Enemy.set_x val self) (fe_directions self)
    (fe_current_direction_index self) (fe_home_x self) (fe_home_y self)
    (fe_offset self) (fe_speed self).
Definition set_y (val : R) (self : FencingEnemyT) : FencingEnemyT :=
  mkFencingEnemy (Enemy.set_y val self) (fe_directions self)
    (fe_current_direction_index self) (fe_home_x self) (fe_home_y self)
    (fe_offset self) (fe_speed self).
Definition set_current_direction_index (val : Z) (self : FencingEnemyT)
    : FencingEnemyT :=
  mkFencingEnemy self (fe_directions self) val (fe_home_x self)
    (fe_home_y self) (fe_offset self) (fe_speed self).

Definition init (size : Z) (color : string) (speed : R) : M FencingEnemyT :=
  g <- get ;;
  let directions := [(1, 0); (0, 1); (-1, 0); (0, -1)]%Z in (* right, down, left, up *)
  let home_x := home_x (home g) in
  let home_y := home_y (home g) in
  let offset := IZR HOME_OFFSET + IZR (Home.size (home g)) / 2 in
  let self :=
    mkFencingEnemy (Enemy.init size color) directions 0 home_x home_y offset speed in
  let self := set_x (home_x - offset) self in
  let self := set_y (home_y - offset) self in
  ret self.

(** [None] stands for the [IndexError] of [directions[index]]. *)
Definition update (self : FencingEnemyT) : M (option FencingEnemyT) :=
  match nth_error (fe_directions self)
                  (Z.to_nat (fe_current_direction_index self)) with
  | None => ret None
  | Some (dx, dy) =>
    g <- get ;;
    let self := set_x (e_x self + IZR dx * fe_speed self) self in
    let self := set_y (e_y self + IZR dy * fe_speed self) self in
    let next := ((fe_current_direction_index self + 1) mod 4)%Z in
    let self :=
      if Py.geb (e_x self) (fe_home_x self + fe_offset self) && (dx =? 1)%Z
      then set_current_direction_index next self       (* right border *)
      else if Py.leb (e_x self) (fe_home_x self - fe_offset self) && (dx =? -1)%Z
      then set_current_direction_index next self       (* left border *)
      else if Py.geb (e_y self) (fe_home_y self + fe_offset self) && (dy =? 1)%Z
      then set_current_direction_index next self       (* bottom border *)
      else if Py.leb (e_y self) (fe_home_y self - fe_offset self) && (dy =? -1)%Z
      then set_current_direction_index next self       (* top border *)
      else self in
    when (Enemy.hits_player self g) TurtleAdventureGame.game_over_lose ;;
    ret (Some self)
  end.

End FencingEnemy.

Module SinEnemy.

Definition set_x (val : R) (self : SinEnemyT) : SinEnemyT :=
  mkSinEnemy (Enemy.set_x val self) (sin_amplitude self) (sin_frequency self)
    (sin_speed self) (sin_angle self).
Definition set_y (val : R) (self : SinEnemyT) : SinEnemyT :=
  mkSinEnemy (Enemy.set_y val self) (sin_amplitude self) (sin_frequency self)
    (sin_speed self) (sin_angle self).
Definition set_speed (val : R) (self : SinEnemyT) : SinEnemyT :=
  mkSinEnemy self (sin_amplitude self) (sin_frequency self) val (sin_angle self).

Definition init (size : Z) (color : string) (speed : R) : M SinEnemyT :=
  g <- get ;;
  let self := mkSinEnemy (Enemy.init size color) 50 (2 / 100) speed 0 in
  let self := set_x 0 self in
  let self := set_y (IZR (screen_height g) / 4) self in
  ret self.

(** The two moves that open [update]. *)
Definition move (self : SinEnemyT) : SinEnemyT :=
  let self := set_x (e_x self + sin_speed self) self in
  set_y (e_y self + sin_amplitude self * sin (sin_frequency self * e_x self)) self.

(** The boundary blocks: bounce on [x], clamp on [y].  The strict tests
    compare exact sums; on doubles [x + size / 2] is rounded before it is
    compared, see [Doubles]. *)
Definition clamp (g : Game) (self : SinEnemyT) : SinEnemyT :=
  let self :=
    if Py.ltb (e_x self - Enemy.half self) 0
    then set_speed (sin_speed self * -1) (set_x (Enemy.half self) self)
    else if Py.gtb (e_x self + Enemy.half self) (IZR (screen_width g))
    then set_speed (sin_speed self * -1)
                   (set_x (IZR (screen_width g) - Enemy.half self) self)
    else self in
  if Py.ltb (e_y self - Enemy.half self) 0
  then set_y (Enemy.half self) self
  else if Py.gtb (e_y self + Enemy.half self) (IZR (screen_height g))
  then set_y (IZR (screen_height g) - Enemy.half self) self
  else self.

Definition update (self : SinEnemyT) : M SinEnemyT :=
  g <- get ;;
  let self := move self in
  let self := clamp g self in
  when (Enemy.hits_player self g) TurtleAdventureGame.game_over_lose ;;
  ret self.

End SinEnemy.

(** ** [EnemyGenerator] *)

Module EnemyGenerator.

Definition set_fencing_enemy_count (val : Z) : M unit :=
  modify (fun g =>
    with_enemy_generator
      (mkEnemyGenerator (gen_level (enemy_generator g)) val
                        (sin_enemy_count (enemy_generator g))) g).

Definition set_sin_enemy_count (val : Z) : M unit :=
  modify (fun g =>
    with_enemy_generator
      (mkEnemyGenerator (gen_level (enemy_generator g))
                        (fencing_enemy_count (enemy_generator g)) val) g).

Definition init (level : Z) : M unit :=
  modify (with_enemy_generator (mkEnemyGenerator level 0 0)) ;;
  TurtleAdventureGame.after 100.

Definition create_enemy : M unit :=
  let new_enemy := DemoEnemy.init 20 "red" in
  let new_enemy := DemoEnemy.set_x 100 new_enemy in
  let new_enemy := DemoEnemy.set_y 100 new_enemy in
  TurtleAdventureGame.add_element (ElDemo new_enemy) ;;

  randomwalk_enemy <- RandomWalkEnemy.init 15 "pink" 3 ;;
  rx <- randint 0 800 ;;
  let randomwalk_enemy := RandomWalkEnemy.set_x (IZR rx) randomwalk_enemy in
  ry <- randint 0 500 ;;
  let randomwalk_enemy := RandomWalkEnemy.set_y (IZR ry) randomwalk_enemy in
  TurtleAdventureGame.add_element (ElRandomWalk randomwalk_enemy) ;;

  let chasing_enemy := ChasingEnemy.init 30 "skyblue" 2 in
  cx <- randint 0 800 ;;
  let chasing_enemy := ChasingEnemy.set_x (IZR cx) chasing_enemy in
  cy <- randint 0 500 ;;
  let chasing_enemy := ChasingEnemy.set_y (IZR cy) chasing_enemy in
  TurtleAdventureGame.add_element (ElChasing chasing_enemy) ;;

  g <- get ;;
  (if (fencing_enemy_count (enemy_generator g) <? 7)%Z then
     fencing_enemy <- FencingEnemy.init 10 "lightgreen" 1 ;;
     g <- get ;;
     let fencing_enemy := FencingEnemy.set_x (home_x (home g)) fencing_enemy in
     let fencing_enemy := FencingEnemy.set_y (home_y (home g)) fencing_enemy in
     TurtleAdventureGame.add_element (ElFencing fencing_enemy) ;;
     set_fencing_enemy_count (fencing_enemy_count (enemy_generator g) + 1)
   else ret tt) ;;

  g <- get ;;
  if (sin_enemy_count (enemy_generator g) <? 10)%Z then
    random_x <- randint 0 (screen_width g) ;;
    sin_enemy <- SinEnemy.init 20 "Lightyellow" 1 ;;
    let sin_enemy := SinEnemy.set_x (IZR random_x) sin_enemy in
    g <- get ;;
    let sin_enemy := SinEnemy.set_y (IZR (screen_height g) / 4) sin_enemy in
    TurtleAdventureGame.add_element (ElSin sin_enemy) ;;
    g <- get ;;
    set_sin_enemy_count (sin_enemy_count (enemy_generator g) + 1) ;;
    (* Call the method again for continuous enemy generation *)
    TurtleAdventureGame.after 1000
  else ret tt.

(** The timer loop fires the oldest [create_enemy] callback registered
    with [after], once; [None] when none is pending. *)
Definition fire (g : Game) : option Game :=
  match scheduled g with
  | [] => None
  | _ :: rest => Some (exec create_enemy (with_scheduled rest g))
  end.

(** [n] batches in a row. *)
Fixpoint batches (n : nat) (g : Game) : option Game :=
  match n with
  | O => Some g
  | S n' =>
    match fire g with
    | None => None
    | Some g' => batches n' g'
    end
  end.

End EnemyGenerator.

(** Euclidean distance. *)
Definition dist (x1 y1 x2 y2 : R) : R :=
  sqrt ((x2 - x1) * (x2 - x1) + (y2 - y1) * (y2 - y1)).

(** [TurtleAdventureGame.__init__] and [init_game]: the session as it
    stands when the game starts.  The waypoint is created inactive at the
    origin, the turtle at the origin with heading 0, and the session is
    taken to be running. *)
Definition init_game (screen_width screen_height level : Z)
    (entropy : nat -> Z) : Game :=
  let the_waypoint := mkWaypoint 0 0 false in
  let the_home :=
    mkHome (IZR (screen_width - 100)) (IZR (screen_height / 2)) 20 in
  let the_player := mkPlayer (Turtle.mk 0 0 0) 5 in
  let self :=
    mkGame level screen_width screen_height the_waypoint the_player the_home []
           (mkEnemyGenerator level 0 0) true [] [] entropy 0 in
  let self := exec (EnemyGenerator.init level) self in
  let self := with_player (Player.set_x 50 (player self)) self in
  with_player (Player.set_y (IZR (screen_height / 2)) (player self)) self.

(** [n] calls of a method in a row. *)
Fixpoint repeat_exec {A : Type} (c : M A) (n : nat) (g : Game) : Game :=
  match n with
  | O => g
  | S n' => repeat_exec c n' (exec c g)
  end.

(** The ceiling of a real number. *)
Definition ceil (r : R) : Z := (- Int_part (- r))%Z.

(** ** The boundary test on IEEE doubles

    The statements of [SinEnemy.update] that read or write [x] and
    [speed], on binary64 floats with round-to-nearest-even, as CPython
    evaluates them once [x] is a [float]:
    [self.x += self.__speed], then the [if]/[elif] on
    [self.x - self.size / 2 < 0] and
    [self.x + self.size / 2 > self.game.screen_width].  The [int]s
    [size], [screen_width] and [speed] enter as the doubles of the same
    value (exact below [2^53], where the mixed comparison of a [float]
    with an [int] agrees with the comparison of doubles).  The statements
    on [y] neither read nor write [x] and [speed].  The result is the
    final [(x, speed)]. *)

Module Doubles.
Import PrimFloat.
Local Open Scope float_scope.


End Doubles.

(** ** Vocabulary of the statements *)

(** One navigation step of the turtle: head for the point, go forward. *)
Definition head_and_go (t : Turtle.t) (wx wy s : R) : Turtle.t :=
  Turtle.forward (Turtle.setheading t (Turtle.towards t wx wy)) s.

(** The player's distance to the waypoint. *)
Definition to_waypoint (g : Game) : R :=
  Turtle.distance (p_turtle (player g)) (wp_x (waypoint g)) (wp_y (waypoint g)).

(** The distance from an enemy to the player. *)
Definition to_player (g : Game) (e : EnemyT) : R :=
  dist (e_x e) (e_y e) (Player.x (player g)) (Player.y (player g)).

(** The bounding square of an enemy lies inside the arena. *)
Definition inside_arena (g : Game) (e : EnemyT) : Prop :=
  (Enemy.half e <= e_x e <= IZR (screen_width g) - Enemy.half e) /\
  (Enemy.half e <= e_y e <= IZR (screen_height g) - Enemy.half e).


(** What a win signal and a loss signal ask of the collaborators. *)
Definition win_effects (g : Game) : list Effect :=
  [Stop; CreateText (IZR (screen_width g) / 2) (IZR (screen_height g) / 2)
                    "You Win" ("Arial"%string, 36%Z, "bold"%string) "green"].

Definition lose_effects (g : Game) : list Effect :=
  [Stop; CreateText (IZR (screen_width g) / 2) (IZR (screen_height g) / 2)
                    "You Lose" ("Arial"%string, 36%Z, "bold"%string) "red"].

(** How many [stop] calls and how many banners a run has made. *)
Definition stops (l : list Effect) : nat :=
  List.length (filter (fun e => match e with Stop => true | _ => false end) l).

Definition banners (l : list Effect) : nat :=
  List.length
    (filter (fun e => match e with CreateText _ _ _ _ _ => true | _ => false end) l).

(** The elements one batch adds to the game. *)
Definition spawned (g : Game) : list Element :=
  skipn (List.length (elements g)) (elements (exec EnemyGenerator.create_enemy g)).

(** The enemies of one batch, read off the draws it consumes: the heading
    of the random walker is the first draw, its position the next two, the
    position of the chaser the two after, the abscissa of the sine enemy
    the sixth. *)
Definition demo_spawn : DemoEnemyT := mkDemoEnemy (mkEnemy 100 100 20 "red") 1.

Definition randomwalk_spawn (g : Game) : RandomWalkEnemyT :=
  mkRandomWalkEnemy
    (mkEnemy (IZR (Py.randint_of 0 800 (entropy g (1 + draws g))))
             (IZR (Py.randint_of 0 500 (entropy g (2 + draws g)))) 15 "pink")
    3 (Py.randint_of 0 360 (entropy g (draws g))).

Definition chasing_spawn (g : Game) : ChasingEnemyT :=
  mkChasingEnemy
    (mkEnemy (IZR (Py.randint_of 0 800 (entropy g (3 + draws g))))
             (IZR (Py.randint_of 0 500 (entropy g (4 + draws g)))) 30 "skyblue")
    2.

Definition fencing_spawn (g : Game) : FencingEnemyT :=
  mkFencingEnemy
    (mkEnemy (home_x (home g)) (home_y (home g)) 10 "lightgreen")
    [(1, 0); (0, 1); (-1, 0); (0, -1)]%Z 0
    (home_x (home g)) (home_y (home g))
    (IZR FencingEnemy.HOME_OFFSET + IZR (home_size (home g)) / 2) 1.

Definition sin_spawn (g : Game) : SinEnemyT :=
  mkSinEnemy
    (mkEnemy (IZR (Py.randint_of 0 (screen_width g) (entropy g (5 + draws g))))
             (IZR (screen_height g) / 4) 20 "Lightyellow")
    50 (2 / 100) 1 0.

Definition batch_of (g : Game) : list Element :=
  [ElDemo demo_spawn; ElRandomWalk (randomwalk_spawn g); ElChasing (chasing_spawn g)]
  ++ (if (fencing_enemy_count (enemy_generator g) <? 7)%Z
      then [ElFencing (fencing_spawn g)] else [])
  ++ (if (sin_enemy_count (enemy_generator g) <? 10)%Z
      then [ElSin (sin_spawn g)] else []).

(** The generator after [k] batches, [k <= 10]: one callback pending. *)
Definition generator_at (k : nat) (g : Game) : Prop :=
  sin_enemy_count (enemy_generator g) = Z.of_nat k /\
  fencing_enemy_count (enemy_generator g) = Z.min 7 (Z.of_nat k) /\
  exists d : Z, scheduled g = [d] /\ (k <> 0%nat -> d = 1000%Z).

(** The generator once the last batch has fired: nothing pending. *)
Definition generator_done (g : Game) : Prop :=
  sin_enemy_count (enemy_generator g) = 10%Z /\
  fencing_enemy_count (enemy_generator g) = 7%Z /\
  scheduled g = [].

(** ** Sample sessions and enemies *)

(** A pointer click: the handler bound in [init_game]. *)
Definition click (x y : R) (g : Game) : Game :=
  with_waypoint (Waypoint.activate (waypoint g) x y) g.

(** The player standing at [(x, y)]. *)
Definition place_player (x y : R) (g : Game) : Game :=
  with_player (Player.set_y y (Player.set_x x (player g))) g.

(** An 800 x 500 arena at level 1, before any batch has fired: home at
    (700, 250), the player at (50, 250) with speed 5. *)
Definition arena_800_500 : Game := init_game 800 500 1 (fun _ => 0%Z).

(** A 400 x 300 arena in which every raw draw is 800. *)
Definition small_arena : Game := init_game 400 300 1 (fun _ => 800%Z).

(** A random walker that slides down the right wall of [arena_800_500],
    three units above the bottom right corner. *)
Definition corner_walker : RandomWalkEnemyT :=
  mkRandomWalkEnemy (mkEnemy (1585 / 2) 490 15 "pink") 3 90.


(** A chaser ten units from the player of [arena_800_500], and one
    spawned on the player. *)
Definition near_chaser : ChasingEnemyT :=
  mkChasingEnemy (mkEnemy 60 250 30 "skyblue") 2.

Definition chaser_on_player : ChasingEnemyT :=
  mkChasingEnemy (mkEnemy 50 250 30 "skyblue") 2.

(** ** Vocabulary of the further properties *)

(** [n] updates of one enemy in a row, each in the game the previous one
    left. *)
Fixpoint run_enemy {E : Type} (update : E -> M E) (n : nat) (e : E) : M E :=
  match n with
  | O => ret e
  | S n' => bind (update e) (run_enemy update n')
  end.

(** The state of the game after an enemy that ends its update as [e] has
    run its collision test. *)
Definition after_collision_test (e : EnemyT) (g : Game) : Game :=
  if Enemy.hits_player e g
  then exec TurtleAdventureGame.game_over_lose g
  else g.

(** What an enemy's update does to the game, given the state [e'] the
    enemy ends in: nothing, or a loss signal when [e'] hits the player. *)
Definition collision_outcome (e' : EnemyT) (g g' : Game) : Prop :=
  (player g' = player g /\ waypoint g' = waypoint g /\ home g' = home g) /\
  (screen_width g' = screen_width g /\ screen_height g' = screen_height g) /\
  (elements g' = elements g /\ enemy_generator g' = enemy_generator g /\
   scheduled g' = scheduled g /\ draws g' = draws g) /\
  is_running g' = (is_running g && negb (Enemy.hits_player e' g)) /\
  effects g' = effects g ++ (if Enemy.hits_player e' g then lose_effects g else []).

(** Whether the moved walker [m] touches a vertical wall, a horizontal
    wall: its square of side [size] reaches [screen_width] or [0] in [x],
    [screen_height] or [0] in [y]. *)
Definition touches_side (g : Game) (m : EnemyT) : bool :=
  Py.geb (e_x m + IZR (e_size m) / 2) (IZR (screen_width g))
  || Py.leb (e_x m - IZR (e_size m) / 2) 0.

Definition touches_top_or_bottom (g : Game) (m : EnemyT) : bool :=
  Py.geb (e_y m + IZR (e_size m) / 2) (IZR (screen_height g))
  || Py.leb (e_y m - IZR (e_size m) / 2) 0.

(** The heading [d'] is [d] or its mirror image [- d], up to half turns. *)
Definition mirrored (d d' : Z) : Prop :=
  ((d' - d) mod 180 = 0 \/ (d' + d) mod 180 = 0)%Z.

(** [n] updates of a fencing enemy in a row; [None] once one has failed. *)
Fixpoint fencing_run (n : nat) (e : FencingEnemyT) : M (option FencingEnemyT) :=
  match n with
  | O => ret (Some e)
  | S n' =>
    bind (FencingEnemy.update e)
         (fun r => match r with
                   | Some e' => fencing_run n' e'
                   | None => ret None
                   end)
  end.

(** A fencing enemy on its round: the four directions of the constructor,
    a positive offset and speed, a position less than one step outside the
    patrol square, and, for the leg it is on, not yet past the side that
    ends this leg nor the side that ends the next one. *)
Definition on_patrol (e : FencingEnemyT) : Prop :=
  fe_directions e = [(1, 0); (0, 1); (-1, 0); (0, -1)]%Z /\
  0 < fe_offset e /\ 0 < fe_speed e /\
  (fe_home_x e - fe_offset e - fe_speed e < e_x e
     < fe_home_x e + fe_offset e + fe_speed e) /\
  (fe_home_y e - fe_offset e - fe_speed e < e_y e
     < fe_home_y e + fe_offset e + fe_speed e) /\
  ((fe_current_direction_index e = 0%Z /\
    e_x e < fe_home_x e + fe_offset e /\ e_y e < fe_home_y e + fe_offset e) \/
   (fe_current_direction_index e = 1%Z /\
    e_y e < fe_home_y e + fe_offset e /\ fe_home_x e - fe_offset e < e_x e) \/
   (fe_current_direction_index e = 2%Z /\
    fe_home_x e - fe_offset e < e_x e /\ fe_home_y e - fe_offset e < e_y e) \/
   (fe_current_direction_index e = 3%Z /\
    fe_home_y e - fe_offset e < e_y e /\ e_x e < fe_home_x e + fe_offset e)).

(** The enemy a fencing update ends in, when the direction read from the
    table is [(dx, dy)]: the body of [FencingEnemy.update] less its
    collision test, to which [fencing_update_eval] ties it. *)
Definition fencing_moved (dx dy : Z) (e : FencingEnemyT) : FencingEnemyT :=
  let self := FencingEnemy.set_x (e_x e + IZR dx * fe_speed e) e in
  let self := FencingEnemy.set_y (e_y self + IZR dy * fe_speed self) self in
  let next := ((fe_current_direction_index self + 1) mod 4)%Z in
  if Py.geb (e_x self) (fe_home_x self + fe_offset self) && (dx =? 1)%Z
  then FencingEnemy.set_current_direction_index next self
  else if Py.leb (e_x self) (fe_home_x self - fe_offset self) && (dx =? -1)%Z
  then FencingEnemy.set_current_direction_index next self
  else if Py.geb (e_y self) (fe_home_y self + fe_offset self) && (dy =? 1)%Z
  then FencingEnemy.set_current_direction_index next self
  else if Py.leb (e_y self) (fe_home_y self - fe_offset self) && (dy =? -1)%Z
  then FencingEnemy.set_current_direction_index next self
  else self.

(** The fencing enemy [e0] moved to [(x, y)] on leg [i] of its round. *)
Definition fencing_at (x y : R) (i : Z) (e0 : FencingEnemyT) : FencingEnemyT :=
  FencingEnemy.set_current_direction_index i
    (FencingEnemy.set_y y (FencingEnemy.set_x x e0)).

(** The player stands where an enemy of size [size] is never clamped. *)
Definition player_clear_of_walls (g : Game) (size : Z) : Prop :=
  (IZR size / 2 <= Player.x (player g) <= IZR (screen_width g) - IZR size / 2) /\
  (IZR size / 2 <= Player.y (player g) <= IZR (screen_height g) - IZR size / 2).

(** The home contains every point within [r] of [(x, y)] on both axes. *)
Definition home_covers (h : HomeT) (x y r : R) : Prop :=
  (home_x h - IZR (home_size h) / 2 <= x - r /\
   x + r <= home_x h + IZR (home_size h) / 2) /\
  (home_y h - IZR (home_size h) / 2 <= y - r /\
   y + r <= home_y h + IZR (home_size h) / 2).

(** How many elements of each kind a list holds. *)
Definition count_kind (kind : Element -> bool) (l : list Element) : nat :=
  List.length (filter kind l).

Definition is_demo (el : Element) : bool :=
  match el with ElDemo _ => true | _ => false end.
Definition is_randomwalk (el : Element) : bool :=
  match el with ElRandomWalk _ => true | _ => false end.
Definition is_chasing (el : Element) : bool :=
  match el with ElChasing _ => true | _ => false end.
Definition is_fencing (el : Element) : bool :=
  match el with ElFencing _ => true | _ => false end.
Definition is_sin (el : Element) : bool :=
  match el with ElSin _ => true | _ => false end.

(** The counters and the numbers of elements of each kind move together:
    the differences between two states of the game. *)
Definition counted (n : nat) (g g' : Game) : Prop :=
  count_kind is_demo (elements g') = (count_kind is_demo (elements g) + n)%nat /\
  count_kind is_randomwalk (elements g')
    = (count_kind is_randomwalk (elements g) + n)%nat /\
  count_kind is_chasing (elements g')
    = (count_kind is_chasing (elements g) + n)%nat /\
  (Z.of_nat (count_kind is_fencing (elements g'))
     - Z.of_nat (count_kind is_fencing (elements g))
   = fencing_enemy_count (enemy_generator g')
     - fencing_enemy_count (enemy_generator g))%Z /\
  (Z.of_nat (count_kind is_sin (elements g'))
     - Z.of_nat (count_kind is_sin (elements g))
   = sin_enemy_count (enemy_generator g')
     - sin_enemy_count (enemy_generator g))%Z.

(** * Facts *)

(** ** Comparisons *)

Lemma ltb_true_iff a b : Py.ltb a b = true <-> a < b.
Proof. unfold Py.ltb. destruct (Rlt_dec a b); split; intros; try easy. Qed.

Lemma ltb_false_iff a b : Py.ltb a b = false <-> b <= a.
Proof. unfold Py.ltb. destruct (Rlt_dec a b); split; intros; try easy; lra. Qed.

Lemma leb_true_iff a b : Py.leb a b = true <-> a <= b.
Proof. unfold Py.leb. destruct (Rle_dec a b); split; intros; try easy. Qed.

Lemma leb_false_iff a b : Py.leb a b = false <-> b < a.
Proof. unfold Py.leb. destruct (Rle_dec a b); split; intros; try easy; lra. Qed.

Lemma geb_true_iff a b : Py.geb a b = true <-> b <= a.
Proof. apply leb_true_iff. Qed.

Lemma geb_false_iff a b : Py.geb a b = false <-> a < b.
Proof. apply leb_false_iff. Qed.

Lemma gtb_true_iff a b : Py.gtb a b = true <-> b < a.
Proof. apply ltb_true_iff. Qed.

Lemma gtb_false_iff a b : Py.gtb a b = false <-> a <= b.
Proof. apply ltb_false_iff. Qed.

(** Case analysis on a Python comparison, keeping the fact it decides. *)
Ltac case_cmp c :=
  let E := fresh "E" in
  destruct c eqn:E;
  [ first [ apply geb_true_iff in E | apply gtb_true_iff in E
          | apply leb_true_iff in E | apply ltb_true_iff in E ]
  | first [ apply geb_false_iff in E | apply gtb_false_iff in E
          | apply leb_false_iff in E | apply ltb_false_iff in E ] ].

Lemma contains_true_iff (h : HomeT) (x y : R) :
  Home.contains h x y = true <->
  (home_x h - IZR (home_size h) / 2 <= x <= home_x h + IZR (home_size h) / 2) /\
  (home_y h - IZR (home_size h) / 2 <= y <= home_y h + IZR (home_size h) / 2).
Proof.
  unfold Home.contains, Home.size.
  rewrite !andb_true_iff, !leb_true_iff. tauto.
Qed.

Lemma hits_player_true_iff (e : EnemyT) (g : Game) :
  Enemy.hits_player e g = true <->
  (e_x e - Enemy.half e < Player.x (player g) < e_x e + Enemy.half e) /\
  (e_y e - Enemy.half e < Player.y (player g) < e_y e + Enemy.half e).
Proof.
  unfold Enemy.hits_player.
  rewrite !andb_true_iff, !ltb_true_iff. tauto.
Qed.

(** ** Angles and bearings *)

Lemma cos_period_Z (x : R) (k : Z) : cos (x + 2 * IZR k * PI) = cos x.
Proof.
  destruct (Z_le_gt_dec 0 k) as [Hk | Hk].
  - rewrite <- (Z2Nat.id k Hk), <- INR_IZR_INZ. apply cos_period.
  - rewrite <- (cos_period (x + 2 * IZR k * PI) (Z.to_nat (- k))).
    rewrite INR_IZR_INZ, Z2Nat.id by lia. rewrite opp_IZR. f_equal. ring.
Qed.

Lemma sin_period_Z (x : R) (k : Z) : sin (x + 2 * IZR k * PI) = sin x.
Proof.
  destruct (Z_le_gt_dec 0 k) as [Hk | Hk].
  - rewrite <- (Z2Nat.id k Hk), <- INR_IZR_INZ. apply sin_period.
  - rewrite <- (sin_period (x + 2 * IZR k * PI) (Z.to_nat (- k))).
    rewrite INR_IZR_INZ, Z2Nat.id by lia. rewrite opp_IZR. f_equal. ring.
Qed.

(** Reducing an angle modulo 360 degrees moves it by full turns. *)
Lemma radians_fmod_360 (a : R) :
  exists k : Z, Py.radians (Py.fmod a 360) = Py.radians a + 2 * IZR k * PI.
Proof.
  exists (- Int_part (a / 360))%Z. unfold Py.radians, Py.fmod.
  rewrite opp_IZR. field.
Qed.

Lemma cos_radians_fmod (a : R) :
  cos (Py.radians (Py.fmod a 360)) = cos (Py.radians a).
Proof. destruct (radians_fmod_360 a) as [k ->]. apply cos_period_Z. Qed.

Lemma sin_radians_fmod (a : R) :
  sin (Py.radians (Py.fmod a 360)) = sin (Py.radians a).
Proof. destruct (radians_fmod_360 a) as [k ->]. apply sin_period_Z. Qed.

Lemma radians_degrees (r : R) : Py.radians (Py.degrees r) = r.
Proof. unfold Py.radians, Py.degrees. field. apply PI_neq0. Qed.

Lemma radians_90 : Py.radians 90 = PI / 2.
Proof. unfold Py.radians. field. Qed.

Lemma norm_pos (x y : R) : x <> 0 \/ y <> 0 -> 0 < sqrt (x * x + y * y).
Proof. intros H. apply sqrt_lt_R0. destruct H; nra. Qed.

Lemma norm_sqr (x y : R) : sqrt (x * x + y * y) * sqrt (x * x + y * y) = x * x + y * y.
Proof. apply sqrt_sqrt. nra. Qed.

Lemma sqrt_slope (x y : R) :
  x <> 0 -> sqrt (1 + (y / x)²) = sqrt (x * x + y * y) / Rabs x.
Proof.
  intros Hx. pose proof (Rabs_pos_lt x Hx) as Ha.
  pose proof (norm_pos x y (or_introl Hx)) as Hd.
  apply sqrt_lem_1.
  - unfold Rsqr. nra.
  - apply Rlt_le. apply Rdiv_lt_0_compat; assumption.
  - unfold Rsqr.
    replace (sqrt (x * x + y * y) / Rabs x * (sqrt (x * x + y * y) / Rabs x))
      with ((sqrt (x * x + y * y) * sqrt (x * x + y * y)) / (Rabs x * Rabs x))
      by (field; lra).
    rewrite norm_sqr.
    replace (Rabs x * Rabs x) with (x * x)
      by (unfold Rabs; destruct (Rcase_abs x); ring).
    field. assumption.
Qed.

(** Away from the origin, [atan2 y x] is the angle of the unit vector
    along [(x, y)]. *)
Lemma cos_atan2 (y x : R) :
  x <> 0 \/ y <> 0 -> cos (Py.atan2 y x) = x / sqrt (x * x + y * y).
Proof.
  intros H. pose proof (norm_pos x y H) as Hd. unfold Py.atan2.
  destruct (Rlt_dec 0 x) as [Hx | Hx].
  - rewrite cos_atan, sqrt_slope by lra. rewrite Rabs_right by lra. field. lra.
  - destruct (Rlt_dec x 0) as [Hx' | Hx'].
    + assert (Hc : cos (atan (y / x)) = - x / sqrt (x * x + y * y)).
      { rewrite cos_atan, sqrt_slope by lra. rewrite Rabs_left by lra. field. lra. }
      destruct (Rle_dec 0 y).
      * rewrite neg_cos, Hc. field. lra.
      * replace (atan (y / x) - PI) with (- (- atan (y / x) + PI)) by ring.
        rewrite cos_neg, neg_cos, cos_neg, Hc. field. lra.
    + assert (x = 0) by lra. subst x.
      destruct (Rlt_dec 0 y).
      * rewrite cos_PI2. lra.
      * destruct (Rlt_dec y 0).
        -- rewrite cos_neg, cos_PI2. lra.
        -- exfalso. destruct H; lra.
Qed.

Lemma sin_atan2 (y x : R) :
  x <> 0 \/ y <> 0 -> sin (Py.atan2 y x) = y / sqrt (x * x + y * y).
Proof.
  intros H. pose proof (norm_pos x y H) as Hd. unfold Py.atan2.
  destruct (Rlt_dec 0 x) as [Hx | Hx].
  - rewrite sin_atan, sqrt_slope by lra. rewrite Rabs_right by lra. field. lra.
  - destruct (Rlt_dec x 0) as [Hx' | Hx'].
    + assert (Hs : sin (atan (y / x)) = - y / sqrt (x * x + y * y)).
      { rewrite sin_atan, sqrt_slope by lra. rewrite Rabs_left by lra. field. lra. }
      destruct (Rle_dec 0 y).
      * rewrite neg_sin, Hs. field. lra.
      * replace (atan (y / x) - PI) with (- (- atan (y / x) + PI)) by ring.
        rewrite sin_neg, neg_sin, sin_neg, Hs. field. lra.
    + assert (x = 0) by lra. subst x.
      replace (0 * 0 + y * y) with (y * y) in * by ring.
      destruct (Rlt_dec 0 y).
      * rewrite sin_PI2, sqrt_square by lra. field. lra.
      * destruct (Rlt_dec y 0).
        -- rewrite sin_neg, sin_PI2.
           replace (y * y) with ((- y) * (- y)) by ring.
           rewrite sqrt_square by lra. field. lra.
        -- exfalso. destruct H; lra.
Qed.

Lemma atan2_0_0 : Py.atan2 0 0 = 0.
Proof.
  unfold Py.atan2. repeat (destruct (Rlt_dec _ _); try lra).
Qed.

(** ** Distances *)

Lemma sqrt_sq_0 (a : R) : 0 <= a -> sqrt (a * a + 0 * 0) = a.
Proof. intros H. replace (a * a + 0 * 0) with (a * a) by ring. now apply sqrt_square. Qed.

Lemma dist_pos (x y tx ty : R) :
  0 < dist x y tx ty <-> (tx - x <> 0 \/ ty - y <> 0).
Proof.
  unfold dist. split.
  - intros H. destruct (Req_dec (tx - x) 0) as [Hx | Hx]; [| now left].
    destruct (Req_dec (ty - y) 0) as [Hy | Hy]; [| now right].
    rewrite Hx, Hy in H. replace (0 * 0 + 0 * 0) with 0 in H by ring.
    rewrite sqrt_0 in H. lra.
  - apply norm_pos.
Qed.

(** Going [s] along the unit vector to a target at distance [d] leaves
    the target at distance [|d - s|]. *)
Lemma dist_step_toward (x y tx ty s : R) :
  0 < dist x y tx ty ->
  dist (x + s * ((tx - x) / dist x y tx ty))
       (y + s * ((ty - y) / dist x y tx ty)) tx ty
  = Rabs (dist x y tx ty - s).
Proof.
  intros Hd.
  assert (Hsq : dist x y tx ty * dist x y tx ty
                = (tx - x) * (tx - x) + (ty - y) * (ty - y)) by apply norm_sqr.
  set (d := dist x y tx ty) in *.
  unfold dist at 1.
  replace ((tx - (x + s * ((tx - x) / d))) * (tx - (x + s * ((tx - x) / d)))
           + (ty - (y + s * ((ty - y) / d))) * (ty - (y + s * ((ty - y) / d))))
    with (Rsqr (d - s)).
  - apply sqrt_Rsqr_abs.
  - unfold Rsqr.
    replace (tx - (x + s * ((tx - x) / d))) with ((tx - x) * ((d - s) / d))
      by (field; lra).
    replace (ty - (y + s * ((ty - y) / d))) with ((ty - y) * ((d - s) / d))
      by (field; lra).
    replace ((tx - x) * ((d - s) / d) * ((tx - x) * ((d - s) / d))
             + (ty - y) * ((d - s) / d) * ((ty - y) * ((d - s) / d)))
      with (((tx - x) * (tx - x) + (ty - y) * (ty - y))
            * (((d - s) / d) * ((d - s) / d))) by ring.
    rewrite <- Hsq. field. lra.
Qed.

Lemma ceil_spec (r : R) : IZR (ceil r) - 1 < r <= IZR (ceil r).
Proof.
  unfold ceil, Int_part. rewrite opp_IZR, minus_IZR.
  destruct (archimed (- r)) as [H1 H2]. lra.
Qed.

Lemma ceil_unique (r : R) (z : Z) : IZR z - 1 < r <= IZR z -> ceil r = z.
Proof.
  intros [H1 H2]. destruct (ceil_spec r) as [H3 H4].
  assert (IZR (ceil r) < IZR z + 1) by lra.
  assert (IZR z < IZR (ceil r) + 1) by lra.
  rewrite <- plus_IZR in *. apply lt_IZR in H, H0. lia.
Qed.

(** ** The turtle *)

Lemma cos_towards (t : Turtle.t) (wx wy : R) :
  cos (Py.radians (Turtle.towards t wx wy)) =
  cos (Py.atan2 (wy - Turtle.ycor t) (wx - Turtle.xcor t)).
Proof. unfold Turtle.towards. now rewrite cos_radians_fmod, radians_degrees. Qed.

Lemma sin_towards (t : Turtle.t) (wx wy : R) :
  sin (Py.radians (Turtle.towards t wx wy)) =
  sin (Py.atan2 (wy - Turtle.ycor t) (wx - Turtle.xcor t)).
Proof. unfold Turtle.towards. now rewrite sin_radians_fmod, radians_degrees. Qed.

Lemma distance_is_dist (t : Turtle.t) (x y : R) :
  Turtle.distance t x y = dist (Turtle.xcor t) (Turtle.ycor t) x y.
Proof. reflexivity. Qed.

Lemma distance_pos (t : Turtle.t) (wx wy : R) :
  0 < Turtle.distance t wx wy <->
  (wx - Turtle.xcor t <> 0 \/ wy - Turtle.ycor t <> 0).
Proof. apply dist_pos. Qed.

(** Away from the waypoint one step goes [s] along the unit vector to it. *)
Lemma head_and_go_xcor (t : Turtle.t) (wx wy s : R) :
  0 < Turtle.distance t wx wy ->
  Turtle.xcor (head_and_go t wx wy s) =
  Turtle.xcor t + s * ((wx - Turtle.xcor t) / Turtle.distance t wx wy).
Proof.
  intros H. apply distance_pos in H. unfold head_and_go. simpl.
  now rewrite cos_towards, cos_atan2.
Qed.

Lemma head_and_go_ycor (t : Turtle.t) (wx wy s : R) :
  0 < Turtle.distance t wx wy ->
  Turtle.ycor (head_and_go t wx wy s) =
  Turtle.ycor t + s * ((wy - Turtle.ycor t) / Turtle.distance t wx wy).
Proof.
  intros H. apply distance_pos in H. unfold head_and_go. simpl.
  now rewrite sin_towards, sin_atan2.
Qed.

(** On the waypoint the bearing is 0: one step goes [s] along the x axis. *)
Lemma head_and_go_at_target (t : Turtle.t) (s : R) :
  head_and_go t (Turtle.xcor t) (Turtle.ycor t) s =
  Turtle.mk (Turtle.xcor t + s) (Turtle.ycor t)
            (Turtle.towards t (Turtle.xcor t) (Turtle.ycor t)).
Proof.
  unfold head_and_go. unfold Turtle.forward. simpl.
  rewrite cos_towards, sin_towards.
  replace (Turtle.ycor t - Turtle.ycor t) with 0 by ring.
  replace (Turtle.xcor t - Turtle.xcor t) with 0 by ring.
  rewrite atan2_0_0, cos_0, sin_0. f_equal; ring.
Qed.

(** After one step the distance to the waypoint is [|d - s|]. *)
Lemma distance_after_step (t : Turtle.t) (wx wy s : R) :
  0 < Turtle.distance t wx wy ->
  Turtle.distance (head_and_go t wx wy s) wx wy =
  Rabs (Turtle.distance t wx wy - s).
Proof.
  intros Hd. rewrite (distance_is_dist (head_and_go t wx wy s)).
  rewrite head_and_go_xcor, head_and_go_ycor by assumption.
  rewrite distance_is_dist in *. now apply dist_step_toward.
Qed.

(** The step itself has length [|s|]. *)
Lemma step_length (t : Turtle.t) (wx wy s : R) :
  Turtle.distance t (Turtle.xcor (head_and_go t wx wy s))
                  (Turtle.ycor (head_and_go t wx wy s)) = Rabs s.
Proof.
  unfold Turtle.distance, head_and_go. simpl.
  set (a := Py.radians (Turtle.towards t wx wy)).
  set (x := Turtle.xcor t). set (y := Turtle.ycor t).
  replace ((x + s * cos a - x) * (x + s * cos a - x)
           + (y + s * sin a - y) * (y + s * sin a - y))
    with (Rsqr s * (Rsqr (sin a) + Rsqr (cos a))) by (unfold Rsqr; ring).
  rewrite sin2_cos2, Rmult_1_r. apply sqrt_Rsqr_abs.
Qed.

(** ** The sample sessions *)

Lemma arena_player :
  player arena_800_500 = mkPlayer (Turtle.mk 50 (IZR (500 / 2)) 0) 5.
Proof. reflexivity. Qed.

Lemma arena_player_pos :
  Player.x (player arena_800_500) = 50 /\ Player.y (player arena_800_500) = 250.
Proof.
  rewrite arena_player. unfold Player.x, Player.y. simpl.
  change (500 / 2)%Z with 250%Z. split; reflexivity.
Qed.

Lemma arena_home : home arena_800_500 = mkHome 700 250 20.
Proof.
  unfold arena_800_500, init_game. simpl.
  change (800 - 100)%Z with 700%Z. change (500 / 2)%Z with 250%Z. reflexivity.
Qed.

Lemma arena_fresh : generator_at 0 arena_800_500.
Proof. repeat split. now exists 100%Z. Qed.

Lemma to_waypoint_click (x y : R) (g : Game) :
  to_waypoint (click x y g) = Turtle.distance (p_turtle (player g)) x y.
Proof. reflexivity. Qed.

Lemma place_player_x (x y : R) (g : Game) : Player.x (player (place_player x y g)) = x.
Proof. reflexivity. Qed.

Lemma place_player_y (x y : R) (g : Game) : Player.y (player (place_player x y g)) = y.
Proof. reflexivity. Qed.

(** ** Zero-size geometry *)

(** C9 (as amended).  A home of size 0 contains exactly its own centre,
    so containment is not always false; an enemy of size 0 hits no player
    position.  Both tests are total: they only halve the size. *)
Theorem zero_size_geometry :
  (forall (h : HomeT) (x y : R),
     home_size h = 0%Z ->
     (Home.contains h x y = true <-> x = home_x h /\ y = home_y h)) /\
  (forall (e : EnemyT) (g : Game),
     e_size e = 0%Z -> Enemy.hits_player e g = false).
Proof.
  split.
  - intros h x y Hz. rewrite contains_true_iff, Hz. lra.
  - intros e g Hz. apply not_true_is_false. rewrite hits_player_true_iff.
    unfold Enemy.half. rewrite Hz. lra.
Qed.

(** A home of size 0 at (700, 250) and an enemy of size 0 on the player. *)
Lemma zero_size_geometry_witness :
  Home.contains (mkHome 700 250 0) 700 250 = true /\
  Enemy.hits_player (mkEnemy 50 250 0 "red") arena_800_500 = false.
Proof.
  split.
  - apply (proj1 zero_size_geometry (mkHome 700 250 0) 700 250 eq_refl).
    split; reflexivity.
  - apply (proj2 zero_size_geometry). reflexivity.
Defined.

(** C9 as stated fails: a home of size 0 contains its centre. *)
Lemma zero_size_home_contains_its_centre :
  Home.contains (mkHome 700 250 0) 700 250 = true.
Proof. apply contains_true_iff. simpl. lra. Qed.

(** ** [Player.update], one call *)

Section OneCall.

(** The game in which [Player.update] is called. *)
Variable g : Game.

Lemma update_player :
  player (exec Player.update g) =
  if wp_active (waypoint g)
  then mkPlayer (head_and_go (p_turtle (player g)) (wp_x (waypoint g))
                             (wp_y (waypoint g)) (p_speed (player g)))
                (p_speed (player g))
  else player g.
Proof.
  unfold exec, Player.update, bind, get, when, Waypoint.is_active.
  destruct (Home.contains _ _ _); simpl; destruct (wp_active (waypoint g)); simpl;
  try reflexivity.
  all: destruct (Py.ltb _ _); reflexivity.
Qed.

Lemma update_waypoint :
  waypoint (exec Player.update g) =
  if wp_active (waypoint g)
  then if Py.ltb (Turtle.distance
                    (head_and_go (p_turtle (player g)) (wp_x (waypoint g))
                                 (wp_y (waypoint g)) (p_speed (player g)))
                    (wp_x (waypoint g)) (wp_y (waypoint g)))
                 (p_speed (player g))
       then Waypoint.deactivate (waypoint g)
       else waypoint g
  else waypoint g.
Proof.
  unfold exec, Player.update, bind, get, when, Waypoint.is_active.
  destruct (Home.contains _ _ _); simpl; destruct (wp_active (waypoint g)); simpl;
  try reflexivity.
  all: unfold head_and_go, Player.speed; simpl; destruct (Py.ltb _ _); reflexivity.
Qed.

Lemma update_effects :
  effects (exec Player.update g) =
  if Home.contains (home g) (Player.x (player g)) (Player.y (player g))
  then effects g ++ win_effects g
  else effects g.
Proof.
  unfold exec, Player.update, bind, get, when, Waypoint.is_active.
  destruct (Home.contains _ _ _); simpl; destruct (wp_active (waypoint g)); simpl;
  try reflexivity.
  all: try (destruct (Py.ltb _ _); simpl).
  all: try reflexivity.
  all: rewrite <- app_assoc; reflexivity.
Qed.

Lemma update_is_running :
  is_running (exec Player.update g) =
  if Home.contains (home g) (Player.x (player g)) (Player.y (player g))
  then false
  else is_running g.
Proof.
  unfold exec, Player.update, bind, get, when, Waypoint.is_active.
  destruct (Home.contains _ _ _); simpl; destruct (wp_active (waypoint g)); simpl;
  try reflexivity.
  all: destruct (Py.ltb _ _); reflexivity.
Qed.

Lemma update_speed :
  p_speed (player (exec Player.update g)) = p_speed (player g).
Proof. rewrite update_player. now destruct (wp_active (waypoint g)). Qed.

Lemma update_wp_x : wp_x (waypoint (exec Player.update g)) = wp_x (waypoint g).
Proof.
  rewrite update_waypoint. destruct (wp_active (waypoint g)); [| reflexivity].
  now destruct (Py.ltb _ _).
Qed.

Lemma update_wp_y : wp_y (waypoint (exec Player.update g)) = wp_y (waypoint g).
Proof.
  rewrite update_waypoint. destruct (wp_active (waypoint g)); [| reflexivity].
  now destruct (Py.ltb _ _).
Qed.

(** With the waypoint inactive the player stays where it is. *)
Lemma update_inactive :
  wp_active (waypoint g) = false ->
  player (exec Player.update g) = player g /\
  waypoint (exec Player.update g) = waypoint g.
Proof. intros H. now rewrite update_player, update_waypoint, H. Qed.

(** One update with the waypoint active and away from the player. *)
Lemma update_active :
  wp_active (waypoint g) = true ->
  0 < to_waypoint g ->
  to_waypoint (exec Player.update g) = Rabs (to_waypoint g - p_speed (player g)) /\
  wp_active (waypoint (exec Player.update g)) =
    negb (Py.ltb (Rabs (to_waypoint g - p_speed (player g))) (p_speed (player g))).
Proof.
  intros Ha Hd. unfold to_waypoint in *.
  rewrite update_wp_x, update_wp_y, update_player, update_waypoint, Ha. simpl.
  rewrite distance_after_step by assumption. split; [reflexivity |].
  destruct (Py.ltb _ _); simpl; [reflexivity | assumption].
Qed.

End OneCall.

(** C1 (as amended).  When [Home.contains] holds for the player at the
    start of [Player.update], the update signals the win: it stops the
    game and draws the "You Win" banner.  With the waypoint inactive the
    player does not move in that call; with the waypoint active the player
    still takes its step toward the waypoint, of length [|speed|]: there
    is no early return. *)
Theorem update_at_home (g : Game) :
  Home.contains (home g) (Player.x (player g)) (Player.y (player g)) = true ->
  (effects (exec Player.update g) = effects g ++ win_effects g /\
   is_running (exec Player.update g) = false) /\
  (wp_active (waypoint g) = false -> player (exec Player.update g) = player g) /\
  (wp_active (waypoint g) = true ->
   p_turtle (player (exec Player.update g)) =
     head_and_go (p_turtle (player g)) (wp_x (waypoint g)) (wp_y (waypoint g))
                 (p_speed (player g)) /\
   dist (Player.x (player g)) (Player.y (player g))
        (Player.x (player (exec Player.update g)))
        (Player.y (player (exec Player.update g))) = Rabs (p_speed (player g))).
Proof.
  intros H. rewrite update_effects, update_is_running, update_player, H.
  split; [split; reflexivity |]. split; intros ->; [reflexivity |].
  split; [reflexivity |]. apply step_length.
Qed.

(** The player on the centre of home, no waypoint set. *)
Lemma update_at_home_witness :
  let g := place_player 700 250 arena_800_500 in
  Home.contains (home g) (Player.x (player g)) (Player.y (player g)) = true /\
  is_running (exec Player.update g) = false /\
  player (exec Player.update g) = player g.
Proof.
  intros g.
  assert (H : Home.contains (home g) (Player.x (player g)) (Player.y (player g)) = true).
  { change (home g) with (home arena_800_500). rewrite arena_home.
    unfold g. rewrite place_player_x, place_player_y.
    apply contains_true_iff. simpl. lra. }
  split; [exact H |].
  split; [exact (proj2 (proj1 (update_at_home g H))) |].
  exact (proj1 (proj2 (update_at_home g H)) eq_refl).
Defined.

(** C1 as stated fails: the player has entered home at (690, 250) on its
    way to a waypoint at (705, 250); the next update signals the win and
    moves the player on to (695, 250). *)
Lemma update_at_home_still_moves :
  let g := click 705 250 (place_player 690 250 arena_800_500) in
  Home.contains (home g) (Player.x (player g)) (Player.y (player g)) = true /\
  wp_active (waypoint g) = true /\
  Player.x (player g) = 690 /\
  Player.x (player (exec Player.update g)) = 695 /\
  ~ (player (exec Player.update g) = player g).
Proof.
  intros g.
  split.
  { change (home g) with (home arena_800_500). rewrite arena_home.
    change (player g) with (player (place_player 690 250 arena_800_500)).
    rewrite place_player_x, place_player_y.
    apply contains_true_iff. simpl. lra. }
  split; [reflexivity |]. split; [reflexivity |].
  assert (Hd : Turtle.distance (p_turtle (player g)) 705 250 = 15).
  { unfold Turtle.distance. simpl.
    replace (705 - 690) with 15 by ring. replace (250 - 250) with 0 by ring.
    apply sqrt_sq_0. lra. }
  assert (Hx : Player.x (player (exec Player.update g)) = 695).
  { unfold Player.x. rewrite update_player. simpl.
    change (Turtle.xcor (head_and_go (p_turtle (player g)) 705 250 5) = 695).
    rewrite head_and_go_xcor; rewrite Hd; simpl; lra. }
  split; [exact Hx |]. intros E. rewrite E in Hx.
  change (Player.x (player g)) with 690 in Hx. lra.
Qed.

(** ** [Player.update], repeated *)

Lemma repeat_update_inactive (n : nat) (g : Game) :
  wp_active (waypoint g) = false ->
  player (repeat_exec Player.update n g) = player g /\
  waypoint (repeat_exec Player.update n g) = waypoint g.
Proof.
  revert g. induction n as [| n IH]; intros g H; simpl; [now split |].
  destruct (update_inactive g H) as [Hp Hw].
  destruct (IH (exec Player.update g)) as [Hp' Hw']; [now rewrite Hw |].
  now rewrite Hp', Hw'.
Qed.

Lemma repeat_update_speed (k : nat) (g : Game) :
  p_speed (player (repeat_exec Player.update k g)) = p_speed (player g).
Proof.
  revert g. induction k as [| k IH]; intros g; simpl; [reflexivity |].
  now rewrite IH, update_speed.
Qed.

Lemma repeat_update_wp (k : nat) (g : Game) :
  wp_x (waypoint (repeat_exec Player.update k g)) = wp_x (waypoint g) /\
  wp_y (waypoint (repeat_exec Player.update k g)) = wp_y (waypoint g).
Proof.
  revert g. induction k as [| k IH]; intros g; simpl; [now split |].
  destruct (IH (exec Player.update g)) as [-> ->].
  now rewrite update_wp_x, update_wp_y.
Qed.

(** While the waypoint is active the player is away from it, provided it
    started away from it. *)
Lemma repeat_update_away (k : nat) (g : Game) :
  0 < p_speed (player g) ->
  (wp_active (waypoint g) = true -> 0 < to_waypoint g) ->
  wp_active (waypoint (repeat_exec Player.update k g)) = true ->
  0 < to_waypoint (repeat_exec Player.update k g).
Proof.
  revert g. induction k as [| k IH]; intros g Hs Hg; simpl; [exact Hg |].
  apply IH.
  - now rewrite update_speed.
  - intros Ha'. destruct (wp_active (waypoint g)) eqn:Ha.
    + destruct (update_active g Ha (Hg eq_refl)) as [Hd Hact].
      rewrite Hd. rewrite Hact in Ha'.
      apply negb_true_iff, ltb_false_iff in Ha'. lra.
    + destruct (update_inactive g Ha) as [_ Hw]. rewrite Hw in Ha'. congruence.
Qed.

(** Within [k] steps of the waypoint, [k] updates arrive. *)
Lemma arrival_within (k : nat) :
  forall g : Game,
    (1 <= k)%nat ->
    wp_active (waypoint g) = true ->
    0 < p_speed (player g) ->
    0 < to_waypoint g <= INR k * p_speed (player g) ->
    wp_active (waypoint (repeat_exec Player.update k g)) = false /\
    to_waypoint (repeat_exec Player.update k g) < p_speed (player g).
Proof.
  induction k as [| k IH]; intros g Hk Ha Hs [Hd Hle]; [lia |].
  destruct (update_active g Ha Hd) as [Hd' Ha'].
  set (g1 := exec Player.update g) in *.
  set (s := p_speed (player g)) in *. set (d := to_waypoint g) in *.
  change (repeat_exec Player.update (S k) g) with (repeat_exec Player.update k g1).
  destruct (Rlt_dec (Rabs (d - s)) s) as [Hnear | Hfar].
  - (* this update arrives; the remaining ones leave everything in place *)
    assert (Hin : wp_active (waypoint g1) = false).
    { rewrite Ha'. apply negb_false_iff. now apply ltb_true_iff. }
    destruct (repeat_update_inactive k g1 Hin) as [Hp Hw].
    unfold to_waypoint. rewrite Hp, Hw. fold (to_waypoint g1).
    rewrite Hin, Hd'. now split.
  - assert (Hact : wp_active (waypoint g1) = true).
    { rewrite Ha'. apply negb_true_iff. apply ltb_false_iff. lra. }
    assert (Hfar' : s <= d - s).
    { unfold Rabs in Hfar. destruct (Rcase_abs (d - s)); lra. }
    assert (Hd1 : to_waypoint g1 = d - s).
    { rewrite Hd'. apply Rabs_right. lra. }
    assert (Hs1 : p_speed (player g1) = s) by apply update_speed.
    rewrite S_INR in Hle.
    destruct k as [| k].
    + simpl in Hle. lra.
    + rewrite <- Hs1. apply IH; try assumption; try lia.
      * now rewrite Hs1.
      * rewrite Hd1, Hs1. lra.
Qed.

(** C2 (as amended: the player starts away from the waypoint).  With a
    speed [s > 0], the waypoint active and the player at a distance
    [d0 > 0] from it, after [ceil (d0 / s)] calls of [Player.update] the
    waypoint is inactive and the player is at a distance less than [s]
    from it.  In every call made while the waypoint is active the player
    is away from the waypoint, advances exactly [s] along the unit vector
    to it, and the waypoint is deactivated exactly when the distance
    after the move is less than [s]. *)
Theorem waypoint_arrival (g : Game) :
  let s := p_speed (player g) in
  0 < s ->
  wp_active (waypoint g) = true ->
  0 < to_waypoint g ->
  let n := Z.to_nat (ceil (to_waypoint g / s)) in
  (wp_active (waypoint (repeat_exec Player.update n g)) = false /\
   to_waypoint (repeat_exec Player.update n g) < s) /\
  (forall k : nat,
     let gk := repeat_exec Player.update k g in
     let gk' := exec Player.update gk in
     wp_active (waypoint gk) = true ->
     0 < to_waypoint gk /\
     Player.x (player gk') =
       Player.x (player gk)
       + s * ((wp_x (waypoint g) - Player.x (player gk)) / to_waypoint gk) /\
     Player.y (player gk') =
       Player.y (player gk)
       + s * ((wp_y (waypoint g) - Player.y (player gk)) / to_waypoint gk) /\
     dist (Player.x (player gk)) (Player.y (player gk))
          (Player.x (player gk')) (Player.y (player gk')) = s /\
     (wp_active (waypoint gk') = false <-> to_waypoint gk' < s)).
Proof.
  intros s Hs Ha Hd n. split.
  - destruct (ceil_spec (to_waypoint g / s)) as [_ Hc].
    assert (Hq : 0 < to_waypoint g / s) by (apply Rdiv_lt_0_compat; assumption).
    assert (Hc1 : (1 <= ceil (to_waypoint g / s))%Z).
    { assert (0 < IZR (ceil (to_waypoint g / s))) by lra.
      apply lt_IZR in H. lia. }
    apply arrival_within; try assumption.
    + unfold n. lia.
    + split; [assumption |]. unfold n. rewrite INR_IZR_INZ, Z2Nat.id by lia.
      fold s. apply (Rmult_le_compat_r s) in Hc; [| lra].
      replace (to_waypoint g / s * s) with (to_waypoint g) in Hc by (field; lra).
      exact Hc.
  - intros k gk gk' Hak.
    assert (Hdk : 0 < to_waypoint gk).
    { apply repeat_update_away; auto. }
    assert (Hsk : p_speed (player gk) = s) by apply repeat_update_speed.
    destruct (repeat_update_wp k g) as [Hwx Hwy]. fold gk in Hwx, Hwy.
    destruct (update_active gk Hak Hdk) as [Hd' Ha'].
    fold gk' in Hd', Ha'. rewrite Hsk in Hd', Ha'.
    split; [exact Hdk |].
    unfold gk', Player.x, Player.y. rewrite update_player, Hak. simpl.
    rewrite Hsk, <- Hwx, <- Hwy.
    split; [now apply head_and_go_xcor |].
    split; [now apply head_and_go_ycor |].
    split.
    + pose proof (step_length (p_turtle (player gk)) (wp_x (waypoint gk))
                              (wp_y (waypoint gk)) s) as Hl.
      transitivity (Rabs s); [exact Hl | apply Rabs_right; lra].
    + fold gk'. rewrite Ha', Hd'. rewrite negb_false_iff. apply ltb_true_iff.
Qed.

(** The end-to-end scenario: a click at (700, 250) with the player at
    (50, 250) and speed 5. *)
Lemma waypoint_arrival_witness :
  let g := click 700 250 arena_800_500 in
  0 < p_speed (player g) /\ wp_active (waypoint g) = true /\ 0 < to_waypoint g /\
  wp_active (waypoint (repeat_exec Player.update
     (Z.to_nat (ceil (to_waypoint g / p_speed (player g)))) g)) = false.
Proof.
  intros g.
  assert (Hs : 0 < p_speed (player g)) by (simpl; lra).
  assert (Ha : wp_active (waypoint g) = true) by reflexivity.
  assert (Hd : 0 < to_waypoint g).
  { apply distance_pos. left. simpl. lra. }
  repeat split; try assumption.
  exact (proj1 (proj1 (waypoint_arrival g Hs Ha Hd))).
Defined.

(** C2 as stated fails when the click lands on the player: the distance
    is 0, so [ceil (d0 / s)] is 0 updates, after which the waypoint is
    still active. *)
Lemma waypoint_arrival_fails_on_the_waypoint :
  let g := click 50 250 arena_800_500 in
  0 < p_speed (player g) /\ wp_active (waypoint g) = true /\
  ~ (wp_active (waypoint (repeat_exec Player.update
        (Z.to_nat (ceil (to_waypoint g / p_speed (player g)))) g)) = false /\
     to_waypoint (repeat_exec Player.update
        (Z.to_nat (ceil (to_waypoint g / p_speed (player g)))) g)
       < p_speed (player g)).
Proof.
  intros g.
  assert (Hd : to_waypoint g = 0).
  { unfold g. rewrite to_waypoint_click, arena_player. unfold Turtle.distance. simpl.
    replace (IZR (500 / 2)) with 250 by (change (500 / 2)%Z with 250%Z; reflexivity).
    replace ((50 - 50) * (50 - 50) + (250 - 250) * (250 - 250)) with 0 by ring.
    apply sqrt_0. }
  split; [simpl; lra |]. split; [reflexivity |].
  rewrite Hd. replace (0 / p_speed (player g)) with 0 by (simpl; field).
  rewrite (ceil_unique 0 0) by lra. simpl. intros [H _]. discriminate H.
Qed.

(** ** Win and loss signals *)

Lemma game_over_lose_exec (g : Game) :
  exec TurtleAdventureGame.game_over_lose g =
  with_effects (effects g ++ lose_effects g) (with_is_running false g).
Proof.
  unfold exec, TurtleAdventureGame.game_over_lose, TurtleAdventureGame.stop,
    TurtleAdventureGame.create_text, bind, get, modify, lose_effects,
    with_effects, with_is_running.
  simpl. now rewrite <- app_assoc.
Qed.

Lemma game_over_win_exec (g : Game) :
  exec TurtleAdventureGame.game_over_win g =
  with_effects (effects g ++ win_effects g) (with_is_running false g).
Proof.
  unfold exec, TurtleAdventureGame.game_over_win, TurtleAdventureGame.stop,
    TurtleAdventureGame.create_text, bind, get, modify, win_effects,
    with_effects, with_is_running.
  simpl. now rewrite <- app_assoc.
Qed.

Lemma stops_app (l1 l2 : list Effect) : stops (l1 ++ l2) = (stops l1 + stops l2)%nat.
Proof. unfold stops. now rewrite filter_app, length_app. Qed.

Lemma banners_app (l1 l2 : list Effect) :
  banners (l1 ++ l2) = (banners l1 + banners l2)%nat.
Proof. unfold banners. now rewrite filter_app, length_app. Qed.

(** C4 (as amended).  Two loss signals in a row leave the session
    stopped after the first and after the second; the transition has no
    guard, so each signal calls [stop] and draws one "You Lose" banner:
    two stops and two banners are added, and nothing else changes. *)
Theorem game_over_lose_twice (g : Game) :
  let g1 := exec TurtleAdventureGame.game_over_lose g in
  let g2 := exec TurtleAdventureGame.game_over_lose g1 in
  (is_running g1 = false /\ is_running g2 = false) /\
  (effects g1 = effects g ++ lose_effects g /\
   effects g2 = effects g1 ++ lose_effects g) /\
  (stops (effects g2) = 2 + stops (effects g) /\
   banners (effects g2) = 2 + banners (effects g))%nat /\
  g2 = with_effects (effects g2) g1.
Proof.
  intros g1 g2. unfold g2, g1. rewrite !game_over_lose_exec. simpl.
  repeat split.
  - rewrite !stops_app. unfold lose_effects, stops at 2 3. simpl. lia.
  - rewrite !banners_app. unfold lose_effects, banners at 2 3. simpl. lia.
Qed.

(** C4 as stated fails: the second loss signal is not idempotent, it
    stops again and draws a second banner. *)
Lemma game_over_lose_twice_draws_twice :
  let g1 := exec TurtleAdventureGame.game_over_lose arena_800_500 in
  let g2 := exec TurtleAdventureGame.game_over_lose g1 in
  is_running g1 = false /\
  ~ (g2 = g1) /\
  ~ (stops (effects g2) = stops (effects g1)) /\
  ~ (banners (effects g2) = banners (effects g1)).
Proof.
  intros g1 g2.
  assert (Hs : stops (effects g2) = 2%nat /\ stops (effects g1) = 1%nat).
  { unfold g2, g1. rewrite !game_over_lose_exec. split; reflexivity. }
  assert (Hb : banners (effects g2) = 2%nat /\ banners (effects g1) = 1%nat).
  { unfold g2, g1. rewrite !game_over_lose_exec. split; reflexivity. }
  destruct Hs as [Hs2 Hs1], Hb as [Hb2 Hb1].
  split; [unfold g1; now rewrite game_over_lose_exec |].
  split; [| split].
  - intros E. rewrite E in Hs2. congruence.
  - congruence.
  - congruence.
Qed.

(** ** One batch of the generator *)

(** Runs [create_enemy] symbolically. *)
Ltac run_create_enemy :=
  unfold exec, EnemyGenerator.create_enemy, RandomWalkEnemy.init, FencingEnemy.init,
    SinEnemy.init, EnemyGenerator.set_fencing_enemy_count,
    EnemyGenerator.set_sin_enemy_count, TurtleAdventureGame.add_element,
    TurtleAdventureGame.after, randint, bind, get, modify, ret; simpl.

(** What one batch adds, and how it moves the counters and the timer. *)
Lemma create_enemy_elements (g : Game) :
  elements (exec EnemyGenerator.create_enemy g) = elements g ++ batch_of g.
Proof.
  unfold batch_of. run_create_enemy.
  destruct (fencing_enemy_count (enemy_generator g) <? 7)%Z; simpl;
  destruct (sin_enemy_count (enemy_generator g) <? 10)%Z; simpl;
  rewrite <- ?app_assoc; reflexivity.
Qed.

Lemma create_enemy_counts (g : Game) :
  let g' := exec EnemyGenerator.create_enemy g in
  fencing_enemy_count (enemy_generator g') =
    (if (fencing_enemy_count (enemy_generator g) <? 7)%Z
     then fencing_enemy_count (enemy_generator g) + 1
     else fencing_enemy_count (enemy_generator g))%Z /\
  sin_enemy_count (enemy_generator g') =
    (if (sin_enemy_count (enemy_generator g) <? 10)%Z
     then sin_enemy_count (enemy_generator g) + 1
     else sin_enemy_count (enemy_generator g))%Z /\
  scheduled g' =
    scheduled g ++ (if (sin_enemy_count (enemy_generator g) <? 10)%Z
                    then [1000%Z] else []).
Proof.
  run_create_enemy.
  destruct (fencing_enemy_count (enemy_generator g) <? 7)%Z; simpl;
  destruct (sin_enemy_count (enemy_generator g) <? 10)%Z; simpl;
  rewrite ?app_nil_r; repeat split.
Qed.

Lemma spawned_batch (g : Game) : spawned g = batch_of g.
Proof.
  unfold spawned. rewrite create_enemy_elements.
  rewrite skipn_app, skipn_all, Nat.sub_diag. reflexivity.
Qed.

Lemma in_batch_fencing (g : Game) (f : FencingEnemyT) :
  In (ElFencing f) (spawned g) -> f = fencing_spawn g.
Proof.
  rewrite spawned_batch. unfold batch_of.
  destruct (fencing_enemy_count (enemy_generator g) <? 7)%Z;
  destruct (sin_enemy_count (enemy_generator g) <? 10)%Z; simpl;
  intros H; repeat (destruct H as [H | H]; try discriminate H; try (now inversion H)).
Qed.

(** C7 (as amended).  The constructor of a fencing enemy places it on the
    top left corner of the patrol square, [(home.x - offset, home.y -
    offset)] with [offset = 20 + home.size / 2]; the generator then moves
    it onto home, so right after the spawn step its position is
    [(home.x, home.y)].  The patrol square it keeps is centred on home
    with that offset. *)
Theorem fencing_spawn_position (g : Game) (f : FencingEnemyT) :
  In (ElFencing f) (spawned g) ->
  let offset := IZR FencingEnemy.HOME_OFFSET + IZR (home_size (home g)) / 2 in
  let built := eval (FencingEnemy.init 10 "lightgreen" 1) g in
  (e_x built = home_x (home g) - offset /\ e_y built = home_y (home g) - offset) /\
  (e_x f = home_x (home g) /\ e_y f = home_y (home g)) /\
  (fe_home_x f = home_x (home g) /\ fe_home_y f = home_y (home g) /\
   fe_offset f = offset /\ offset = 20 + IZR (home_size (home g)) / 2).
Proof.
  intros H. apply in_batch_fencing in H. subst f. simpl.
  repeat split.
Qed.

(** The fencing enemy of the first batch of [arena_800_500]. *)
Lemma fencing_spawn_position_witness :
  exists f, In (ElFencing f) (spawned arena_800_500) /\
            e_x f = home_x (home arena_800_500) /\
            e_y f = home_y (home arena_800_500).
Proof.
  exists (fencing_spawn arena_800_500).
  assert (H : In (ElFencing (fencing_spawn arena_800_500)) (spawned arena_800_500)).
  { rewrite spawned_batch. simpl. tauto. }
  split; [exact H |].
  exact (proj1 (proj2 (fencing_spawn_position arena_800_500 _ H))).
Defined.

(** C7 as stated fails: the fencing enemy of the first batch stands at
    (700, 250), the centre of home, not at the corner (670, 220). *)
Lemma fencing_spawns_on_home :
  exists f, In (ElFencing f) (spawned arena_800_500) /\
            e_x f = 700 /\ e_y f = 250 /\
            ~ (e_x f = home_x (home arena_800_500)
                       - (20 + IZR (home_size (home arena_800_500)) / 2)) /\
            ~ (e_y f = home_y (home arena_800_500)
                       - (20 + IZR (home_size (home arena_800_500)) / 2)).
Proof.
  exists (fencing_spawn arena_800_500).
  split; [rewrite spawned_batch; simpl; tauto |].
  unfold fencing_spawn. rewrite arena_home. simpl. repeat split; lra.
Qed.

Lemma randint_of_range (a b r : Z) :
  (a <= b)%Z -> (a <= Py.randint_of a b r <= b)%Z.
Proof.
  intros H. unfold Py.randint_of.
  pose proof (Z.mod_pos_bound r (b - a + 1)). lia.
Qed.

Lemma IZR_randint_of_range (b r : Z) :
  (0 <= b)%Z -> 0 <= IZR (Py.randint_of 0 b r) <= IZR b.
Proof.
  intros H. destruct (randint_of_range 0 b r H). split; now apply IZR_le.
Qed.

(** What a batch does draw: the box [0..800] x [0..500], whatever the
    arena. *)
Lemma spawn_range (g : Game) :
  (forall e, In (ElRandomWalk e) (spawned g) ->
     0 <= e_x e <= 800 /\ 0 <= e_y e <= 500) /\
  (forall e, In (ElChasing e) (spawned g) ->
     0 <= e_x e <= 800 /\ 0 <= e_y e <= 500).
Proof.
  rewrite spawned_batch. unfold batch_of.
  split; intros e H;
  destruct (fencing_enemy_count (enemy_generator g) <? 7)%Z;
  destruct (sin_enemy_count (enemy_generator g) <? 10)%Z; simpl in H;
  repeat (destruct H as [H | H]; try discriminate H; try contradiction);
  inversion H; subst e;
  (split; [apply (IZR_randint_of_range 800) | apply (IZR_randint_of_range 500)]; lia).
Qed.

(** C8.  The random walker and the chaser are drawn from the fixed box
    [0..800] x [0..500] (see [spawn_range]), not from the arena: in a
    400 x 300 arena a draw of 800 puts the random walker at x = 800,
    outside the arena.  The sine enemy of the same batch is drawn from
    [0..screen_width]. *)
Theorem spawn_outside_small_arena :
  exists e, In (ElRandomWalk e) (spawned small_arena) /\
            e_x e = 800 /\ IZR (screen_width small_arena) < e_x e.
Proof.
  exists (randomwalk_spawn small_arena).
  split; [rewrite spawned_batch; simpl; tauto |].
  unfold randomwalk_spawn, Py.randint_of. simpl entropy.
  change (0 + 800 mod (800 - 0 + 1))%Z with 800%Z. simpl. split; lra.
Qed.

(** ** The batches of the generator *)

Lemma batches_add (a b : nat) (g : Game) :
  EnemyGenerator.batches (a + b) g =
  match EnemyGenerator.batches a g with
  | Some g' => EnemyGenerator.batches b g'
  | None => None
  end.
Proof.
  revert g. induction a as [| a IH]; intros g; simpl; [reflexivity |].
  destruct (EnemyGenerator.fire g); [apply IH | reflexivity].
Qed.

Lemma fire_pending (d : Z) (g : Game) :
  scheduled g = [d] ->
  EnemyGenerator.fire g = Some (exec EnemyGenerator.create_enemy (with_scheduled [] g)).
Proof. unfold EnemyGenerator.fire. now intros ->. Qed.

Lemma fire_before_cap (k : nat) (g : Game) :
  (k < 10)%nat -> generator_at k g ->
  exists g', EnemyGenerator.fire g = Some g' /\ generator_at (S k) g' /\
             scheduled g' = [1000%Z] /\
             List.length (elements g') =
               (List.length (elements g) + (if (k <? 7)%nat then 5 else 4))%nat.
Proof.
  intros Hk (Hs & Hf & d & Hd & _).
  exists (exec EnemyGenerator.create_enemy (with_scheduled [] g)).
  split; [now apply (fire_pending d) |].
  destruct (create_enemy_counts (with_scheduled [] g)) as (Hf' & Hs' & Hsch).
  pose proof (create_enemy_elements (with_scheduled [] g)) as He.
  unfold batch_of in He. simpl in Hf', Hs', Hsch, He.
  rewrite Hs in Hs', Hsch, He. rewrite Hf in Hf', He.
  assert (Hlt : (Z.of_nat k <? 10)%Z = true) by (apply Z.ltb_lt; lia).
  rewrite Hlt in Hs', Hsch, He.
  split; [| split].
  - split; [rewrite Hs'; lia |]. split; [| now exists 1000%Z].
    rewrite Hf'. destruct (Z.min 7 (Z.of_nat k) <? 7)%Z eqn:E.
    + apply Z.ltb_lt in E. lia.
    + apply Z.ltb_ge in E. lia.
  - exact Hsch.
  - rewrite He. destruct (k <? 7)%nat eqn:E.
    + apply Nat.ltb_lt in E.
      replace (Z.min 7 (Z.of_nat k) <? 7)%Z with true by (symmetry; apply Z.ltb_lt; lia).
      rewrite length_app. reflexivity.
    + apply Nat.ltb_ge in E.
      replace (Z.min 7 (Z.of_nat k) <? 7)%Z with false by (symmetry; apply Z.ltb_ge; lia).
      rewrite length_app. reflexivity.
Qed.

Lemma fire_at_cap (g : Game) :
  generator_at 10 g ->
  exists g', EnemyGenerator.fire g = Some g' /\ generator_done g' /\
             elements g' =
               elements g ++ [ElDemo demo_spawn;
                              ElRandomWalk (randomwalk_spawn g);
                              ElChasing (chasing_spawn g)].
Proof.
  intros (Hs & Hf & d & Hd & _).
  exists (exec EnemyGenerator.create_enemy (with_scheduled [] g)).
  split; [now apply (fire_pending d) |].
  destruct (create_enemy_counts (with_scheduled [] g)) as (Hf' & Hs' & Hsch).
  pose proof (create_enemy_elements (with_scheduled [] g)) as He.
  unfold batch_of in He. simpl in Hf', Hs', Hsch, He.
  rewrite Hs in Hs', Hsch, He. rewrite Hf in Hf', He.
  simpl in Hf', Hs', Hsch, He.
  split; [split; [| split] |]; assumption.
Qed.

Lemma fire_done (g : Game) : generator_done g -> EnemyGenerator.fire g = None.
Proof. intros (_ & _ & H). unfold EnemyGenerator.fire. now rewrite H. Qed.

Lemma batches_before_cap (n : nat) :
  forall (k : nat) (g : Game),
    (k + n <= 10)%nat -> generator_at k g ->
    exists g', EnemyGenerator.batches n g = Some g' /\ generator_at (k + n) g'.
Proof.
  induction n as [| n IH]; intros k g Hk Hg.
  - exists g. rewrite Nat.add_0_r. now split.
  - destruct (fire_before_cap k g) as (g1 & Hfire & Hg1 & _); [lia | assumption |].
    destruct (IH (S k) g1) as (g' & Hb & Hg'); [lia | assumption |].
    exists g'. simpl. rewrite Hfire. split; [exact Hb |].
    now replace (k + S n)%nat with (S k + n)%nat by lia.
Qed.

(** All eleven batches of a fresh generator. *)
Lemma batches_of_fresh (g : Game) :
  generator_at 0 g ->
  (forall n : nat, (n <= 10)%nat ->
     exists gn, EnemyGenerator.batches n g = Some gn /\ generator_at n gn) /\
  (exists g10 g11,
     EnemyGenerator.batches 10 g = Some g10 /\ generator_at 10 g10 /\
     EnemyGenerator.fire g10 = Some g11 /\
     EnemyGenerator.batches 11 g = Some g11 /\ generator_done g11 /\
     elements g11 =
       elements g10 ++ [ElDemo demo_spawn;
                        ElRandomWalk (randomwalk_spawn g10);
                        ElChasing (chasing_spawn g10)]) /\
  (forall n : nat, (11 < n)%nat -> EnemyGenerator.batches n g = None).
Proof.
  intros Hg.
  assert (H10 : forall n : nat, (n <= 10)%nat ->
     exists gn, EnemyGenerator.batches n g = Some gn /\ generator_at n gn).
  { intros n Hn. apply (batches_before_cap n 0 g); [lia | assumption]. }
  destruct (H10 10%nat (le_n _)) as (g10 & Hb10 & Hg10).
  destruct (fire_at_cap g10 Hg10) as (g11 & Hfire & Hdone & Hel).
  assert (Hb11 : EnemyGenerator.batches 11 g = Some g11).
  { change 11%nat with (10 + 1)%nat. rewrite batches_add, Hb10. simpl. now rewrite Hfire. }
  split; [exact H10 |]. split.
  - exists g10, g11.
    split; [exact Hb10 |]. split; [exact Hg10 |]. split; [exact Hfire |].
    split; [exact Hb11 |]. split; [exact Hdone | exact Hel].
  - intros n Hn. replace n with (11 + S (n - 12))%nat by lia.
    rewrite batches_add, Hb11. simpl. now rewrite (fire_done g11 Hdone).
Qed.

(** [EnemyGenerator.__init__] leaves a fresh generator. *)
Lemma fresh_generator (lvl : Z) (g : Game) :
  scheduled g = [] -> generator_at 0 (exec (EnemyGenerator.init lvl) g).
Proof.
  intros H. unfold generator_at, exec, EnemyGenerator.init, TurtleAdventureGame.after,
    bind, modify. simpl. rewrite H. repeat split. now exists 100%Z.
Qed.

Lemma generator_at_scheduled (k : nat) (g : Game) :
  generator_at k g -> k <> 0%nat -> scheduled g = [1000%Z].
Proof. intros (_ & _ & d & Hd & Hk) Hnz. now rewrite Hd, Hk. Qed.

(** C3 (as amended).  From a fresh generator (both counters 0, the first
    callback pending) exactly eleven batches fire.  After batch [n], for
    [n <= 11], the counters are [min 10 n] and [min 7 n], hence never
    decrease and never exceed their caps.  The tenth batch brings the sine
    counter to 10 and still schedules one more batch; that eleventh batch
    adds one demo enemy, one random walker and one chaser, no fencing or
    sine enemy, and schedules nothing; no batch fires after it. *)
Theorem spawn_cap (g : Game) (d : Z) :
  sin_enemy_count (enemy_generator g) = 0%Z ->
  fencing_enemy_count (enemy_generator g) = 0%Z ->
  scheduled g = [d] ->
  (forall n : nat, (n <= 11)%nat ->
     exists gn, EnemyGenerator.batches n g = Some gn /\
       sin_enemy_count (enemy_generator gn) = Z.min 10 (Z.of_nat n) /\
       fencing_enemy_count (enemy_generator gn) = Z.min 7 (Z.of_nat n)) /\
  (forall (m n : nat) (gm gn : Game),
     (m <= n)%nat ->
     EnemyGenerator.batches m g = Some gm ->
     EnemyGenerator.batches n g = Some gn ->
     (sin_enemy_count (enemy_generator gm)
        <= sin_enemy_count (enemy_generator gn) <= 10)%Z /\
     (fencing_enemy_count (enemy_generator gm)
        <= fencing_enemy_count (enemy_generator gn) <= 7)%Z) /\
  (exists g10 g11,
     EnemyGenerator.batches 10 g = Some g10 /\
     sin_enemy_count (enemy_generator g10) = 10%Z /\
     scheduled g10 = [1000%Z] /\
     EnemyGenerator.fire g10 = Some g11 /\
     elements g11 =
       elements g10 ++ [ElDemo demo_spawn;
                        ElRandomWalk (randomwalk_spawn g10);
                        ElChasing (chasing_spawn g10)] /\
     scheduled g11 = []) /\
  (forall n : nat, (11 < n)%nat -> EnemyGenerator.batches n g = None).
Proof.
  intros Hs Hf Hd.
  assert (Hg : generator_at 0 g).
  { split; [exact Hs |]. split; [exact Hf |]. exists d. now split. }
  destruct (batches_of_fresh g Hg) as (H10 & Hlast & Hnone).
  destruct Hlast as (g10 & g11 & Hb10 & Hg10 & Hfire & Hb11 & Hdone & Hel).
  assert (Hcount : forall n : nat, (n <= 11)%nat ->
     exists gn, EnemyGenerator.batches n g = Some gn /\
       sin_enemy_count (enemy_generator gn) = Z.min 10 (Z.of_nat n) /\
       fencing_enemy_count (enemy_generator gn) = Z.min 7 (Z.of_nat n)).
  { intros n Hn. destruct (Nat.eq_dec n 11) as [-> | Hne].
    - exists g11. destruct Hdone as (Hs11 & Hf11 & _).
      split; [exact Hb11 |]. rewrite Hs11, Hf11. split; reflexivity.
    - destruct (H10 n) as (gn & Hbn & Hsn & Hfn & _); [lia |].
      exists gn. split; [exact Hbn |]. split; [rewrite Hsn; lia | exact Hfn]. }
  split; [exact Hcount |]. split; [| split].
  - intros m n gm gn Hmn Hbm Hbn.
    assert (Hn : (n <= 11)%nat).
    { destruct (Nat.le_gt_cases n 11) as [Hle | Hgt]; [exact Hle |].
      rewrite (Hnone n Hgt) in Hbn. discriminate Hbn. }
    destruct (Hcount m) as (gm' & Hbm' & Hsm & Hfm); [lia |].
    destruct (Hcount n Hn) as (gn' & Hbn' & Hsn & Hfn).
    rewrite Hbm in Hbm'. rewrite Hbn in Hbn'.
    injection Hbm' as <-. injection Hbn' as <-.
    rewrite Hsm, Hsn, Hfm, Hfn. lia.
  - exists g10, g11. destruct Hg10 as (Hs10 & Hrest). destruct Hdone as (_ & _ & Hsch).
    split; [exact Hb10 |]. split; [exact Hs10 |].
    split; [apply (generator_at_scheduled 10); [split; assumption | discriminate] |].
    split; [exact Hfire |]. split; [exact Hel | exact Hsch].
  - exact Hnone.
Qed.

(** The generator of [arena_800_500] after its eleven batches. *)
Lemma spawn_cap_witness :
  exists g11,
    EnemyGenerator.batches 11 arena_800_500 = Some g11 /\
    sin_enemy_count (enemy_generator g11) = 10%Z /\
    fencing_enemy_count (enemy_generator g11) = 7%Z.
Proof.
  destruct (spawn_cap arena_800_500 100 eq_refl eq_refl eq_refl) as (H & _).
  destruct (H 11%nat (le_n _)) as (g11 & Hb & Hs & Hf).
  exists g11. split; [exact Hb |]. split; [exact Hs | exact Hf].
Defined.

(** C3 as stated fails: after the tenth batch the sine counter is 10 and
    a callback is pending; the eleventh batch fires and adds three
    enemies. *)
Lemma eleventh_batch_spawns :
  exists g10 g11,
    EnemyGenerator.batches 10 arena_800_500 = Some g10 /\
    sin_enemy_count (enemy_generator g10) = 10%Z /\
    scheduled g10 = [1000%Z] /\
    EnemyGenerator.batches 11 arena_800_500 = Some g11 /\
    List.length (elements g11) = (List.length (elements g10) + 3)%nat.
Proof.
  destruct (batches_of_fresh arena_800_500 arena_fresh)
    as (_ & (g10 & g11 & Hb10 & Hg10 & _ & Hb11 & _ & Hel) & _).
  exists g10, g11. split; [exact Hb10 |]. split; [apply Hg10 |].
  split; [apply (generator_at_scheduled 10); [exact Hg10 | discriminate] |].
  split; [exact Hb11 |]. rewrite Hel, length_app. reflexivity.
Qed.

(** ** [RandomWalkEnemy.update] *)

Lemma randomwalk_update_eval (e : RandomWalkEnemyT) (g : Game) :
  eval (RandomWalkEnemy.update e) g =
  RandomWalkEnemy.vertical_frame g
    (RandomWalkEnemy.horizontal_frame g (RandomWalkEnemy.move e)).
Proof.
  unfold eval, RandomWalkEnemy.update, bind, get, when, ret. simpl.
  destruct (Enemy.hits_player _ _); simpl.
  - destruct (TurtleAdventureGame.game_over_lose g). reflexivity.
  - reflexivity.
Qed.

(** The three outcomes of the horizontal block, and of the vertical one. *)
Lemma horizontal_frame_spec (g : Game) (m : RandomWalkEnemyT) :
  let h := RandomWalkEnemy.horizontal_frame g m in
  e_y h = e_y m /\ e_size h = e_size m /\
  (IZR (screen_width g) <= e_x m + Enemy.half m ->
     e_x h = IZR (screen_width g) - Enemy.half m /\
     rw_direction h = (180 - rw_direction m)%Z) /\
  (e_x m + Enemy.half m < IZR (screen_width g) -> e_x m - Enemy.half m <= 0 ->
     e_x h = Enemy.half m /\ rw_direction h = (180 - rw_direction m)%Z) /\
  (e_x m + Enemy.half m < IZR (screen_width g) -> 0 < e_x m - Enemy.half m ->
     h = m).
Proof.
  unfold RandomWalkEnemy.horizontal_frame.
  change (Enemy.half (RandomWalkEnemy.set_direction (180 - rw_direction m) m))
    with (Enemy.half m).
  change (e_x (RandomWalkEnemy.set_direction (180 - rw_direction m) m)) with (e_x m).
  case_cmp (Py.geb (e_x m + Enemy.half m) (IZR (screen_width g)));
  case_cmp (Py.leb (e_x m - Enemy.half m) 0); simpl;
  repeat split; intros; try lra; reflexivity.
Qed.

Lemma vertical_frame_spec (g : Game) (m : RandomWalkEnemyT) :
  let v := RandomWalkEnemy.vertical_frame g m in
  e_x v = e_x m /\ e_size v = e_size m /\
  (IZR (screen_height g) <= e_y m + Enemy.half m ->
     e_y v = IZR (screen_height g) - Enemy.half m /\
     rw_direction v = (- rw_direction m)%Z) /\
  (e_y m + Enemy.half m < IZR (screen_height g) -> e_y m - Enemy.half m <= 0 ->
     e_y v = Enemy.half m /\ rw_direction v = (- rw_direction m)%Z) /\
  (e_y m + Enemy.half m < IZR (screen_height g) -> 0 < e_y m - Enemy.half m ->
     v = m).
Proof.
  unfold RandomWalkEnemy.vertical_frame.
  change (Enemy.half (RandomWalkEnemy.set_direction (- rw_direction m) m))
    with (Enemy.half m).
  change (e_y (RandomWalkEnemy.set_direction (- rw_direction m) m)) with (e_y m).
  case_cmp (Py.geb (e_y m + Enemy.half m) (IZR (screen_height g)));
  case_cmp (Py.leb (e_y m - Enemy.half m) 0); simpl;
  repeat split; intros; try lra; reflexivity.
Qed.

(** C5 (as amended).  Let [m] be the enemy after the two moves of
    [RandomWalkEnemy.update] and [h] the enemy after the horizontal block.
    Right edge: if [m.x + size/2 >= screen_width] then the final x is
    exactly [screen_width - size/2] and the horizontal block sets the
    direction to [180 - direction_old].  Left edge (the right edge test
    failing): x is [size/2], same direction.  Bottom edge: if
    [m.y + size/2 >= screen_height] the final y is
    [screen_height - size/2]; top edge (the bottom test failing): y is
    [size/2]; in both the final direction is the opposite of the direction
    left by the horizontal block, so [- direction_old] only if no vertical
    wall was touched before, and [direction_old - 180] in a corner.  When a
    block's tests fail it changes neither coordinate nor direction. *)
Theorem random_walk_reflection (e : RandomWalkEnemyT) (g : Game) :
  let m := RandomWalkEnemy.move e in
  let h := RandomWalkEnemy.horizontal_frame g m in
  let e' := eval (RandomWalkEnemy.update e) g in
  let width := IZR (screen_width g) in
  let height := IZR (screen_height g) in
  let half := Enemy.half e in
  (width <= e_x m + half ->
     e_x e' = width - half /\ rw_direction h = (180 - rw_direction e)%Z) /\
  (e_x m + half < width -> e_x m - half <= 0 ->
     e_x e' = half /\ rw_direction h = (180 - rw_direction e)%Z) /\
  (e_x m + half < width -> 0 < e_x m - half ->
     e_x e' = e_x m /\ rw_direction h = rw_direction e) /\
  (height <= e_y m + half ->
     e_y e' = height - half /\ rw_direction e' = (- rw_direction h)%Z) /\
  (e_y m + half < height -> e_y m - half <= 0 ->
     e_y e' = half /\ rw_direction e' = (- rw_direction h)%Z) /\
  (e_y m + half < height -> 0 < e_y m - half ->
     e_y e' = e_y m /\ rw_direction e' = rw_direction h).
Proof.
  intros m h e' width height half.
  assert (He' : e' = RandomWalkEnemy.vertical_frame g h)
    by apply randomwalk_update_eval.
  destruct (horizontal_frame_spec g m) as (Hy & Hsz & Hright & Hleft & Hin).
  destruct (vertical_frame_spec g h) as (Hx & _ & Hbottom & Htop & Hmid).
  fold h in Hy, Hsz, Hright, Hleft, Hin. rewrite <- He' in Hx, Hbottom, Htop, Hmid.
  assert (Hhalf : Enemy.half h = half) by (unfold Enemy.half; now rewrite Hsz).
  change (Enemy.half m) with half in *. change (rw_direction m) with (rw_direction e) in *.
  rewrite Hhalf, Hy in *. fold width in Hright, Hleft, Hin. fold height in Hbottom, Htop, Hmid.
  rewrite Hx.
  split; [exact Hright |]. split; [exact Hleft |].
  split; [intros H1 H2; now rewrite (Hin H1 H2) |].
  split; [exact Hbottom |]. split; [exact Htop |].
  intros H1 H2. rewrite (Hmid H1 H2). now split.
Qed.

Lemma corner_walker_move :
  e_x (RandomWalkEnemy.move corner_walker) = 1585 / 2 /\
  e_y (RandomWalkEnemy.move corner_walker) = 493.
Proof.
  unfold RandomWalkEnemy.move, corner_walker. simpl.
  rewrite radians_90, cos_PI2, sin_PI2. split; lra.
Qed.

(** [corner_walker] touches the right wall. *)
Lemma random_walk_reflection_witness :
  IZR (screen_width arena_800_500)
    <= e_x (RandomWalkEnemy.move corner_walker) + Enemy.half corner_walker /\
  e_x (eval (RandomWalkEnemy.update corner_walker) arena_800_500)
    = IZR (screen_width arena_800_500) - Enemy.half corner_walker.
Proof.
  destruct corner_walker_move as [Hx Hy].
  assert (H : IZR (screen_width arena_800_500)
              <= e_x (RandomWalkEnemy.move corner_walker) + Enemy.half corner_walker).
  { rewrite Hx. unfold Enemy.half. simpl. lra. }
  split; [exact H |].
  exact (proj1 (proj1 (random_walk_reflection corner_walker arena_800_500) H)).
Defined.

(** C5 as stated fails in a corner: [corner_walker], heading 90, touches
    the right wall and the bottom wall in one update and leaves with
    direction -90, which is not 180 - 90, not even modulo 360. *)
Lemma corner_reflects_twice :
  let e' := eval (RandomWalkEnemy.update corner_walker) arena_800_500 in
  IZR (screen_width arena_800_500)
    <= e_x (RandomWalkEnemy.move corner_walker) + Enemy.half corner_walker /\
  rw_direction e' = (-90)%Z /\
  ~ (rw_direction e' = 180 - rw_direction corner_walker)%Z /\
  ~ ((rw_direction e' - (180 - rw_direction corner_walker)) mod 360 = 0)%Z.
Proof.
  intros e'. destruct corner_walker_move as [Hx Hy].
  set (m := RandomWalkEnemy.move corner_walker) in *.
  set (h := RandomWalkEnemy.horizontal_frame arena_800_500 m).
  assert (He' : e' = RandomWalkEnemy.vertical_frame arena_800_500 h)
    by apply randomwalk_update_eval.
  assert (Hr : IZR (screen_width arena_800_500) <= e_x m + Enemy.half m).
  { rewrite Hx. unfold Enemy.half. simpl. lra. }
  destruct (horizontal_frame_spec arena_800_500 m) as (Hhy & Hhs & Hright & _).
  destruct (Hright Hr) as [_ Hd]. fold h in Hhy, Hhs, Hd.
  assert (Hb : IZR (screen_height arena_800_500) <= e_y h + Enemy.half h).
  { rewrite Hhy, Hy. unfold Enemy.half. rewrite Hhs. simpl. lra. }
  destruct (vertical_frame_spec arena_800_500 h) as (_ & _ & Hbottom & _).
  destruct (Hbottom Hb) as [_ Hd']. rewrite <- He' in Hd'.
  assert (E : rw_direction e' = (-90)%Z) by (rewrite Hd', Hd; reflexivity).
  split; [exact Hr |]. split; [exact E |]. rewrite E. simpl. split; discriminate.
Qed.

(** ** Enemies stay in the arena *)

Lemma chasing_update_eval (e : ChasingEnemyT) (g : Game) :
  eval (ChasingEnemy.update e) g = ChasingEnemy.clamp g (ChasingEnemy.move g e).
Proof.
  unfold eval, ChasingEnemy.update, bind, get, when, ret. simpl.
  destruct (Enemy.hits_player _ _); simpl.
  - destruct (TurtleAdventureGame.game_over_lose g). reflexivity.
  - reflexivity.
Qed.

Lemma sin_update_eval (e : SinEnemyT) (g : Game) :
  eval (SinEnemy.update e) g = SinEnemy.clamp g (SinEnemy.move e).
Proof.
  unfold eval, SinEnemy.update, bind, get, when, ret. simpl.
  destruct (Enemy.hits_player _ _); simpl.
  - destruct (TurtleAdventureGame.game_over_lose g). reflexivity.
  - reflexivity.
Qed.





(** Inside the arena the boundary block changes nothing. *)
Lemma chasing_clamp_id (g : Game) (m : ChasingEnemyT) :
  inside_arena g m -> ChasingEnemy.clamp g m = m.
Proof.
  intros [Hx Hy]. unfold ChasingEnemy.clamp.
  replace (Py.ltb (e_x m - Enemy.half m) 0) with false
    by (symmetry; apply ltb_false_iff; lra).
  replace (Py.gtb (e_x m + Enemy.half m) (IZR (screen_width g))) with false
    by (symmetry; apply gtb_false_iff; lra).
  replace (Py.ltb (e_y m - Enemy.half m) 0) with false
    by (symmetry; apply ltb_false_iff; lra).
  replace (Py.gtb (e_y m + Enemy.half m) (IZR (screen_height g))) with false
    by (symmetry; apply gtb_false_iff; lra).
  reflexivity.
Qed.




Section OnDoubles.
Import PrimFloat.
Local Open Scope float_scope.


End OnDoubles.

(** ** [ChasingEnemy.update] *)

Lemma chasing_move_x (g : Game) (e : ChasingEnemyT) :
  0 < to_player g e ->
  e_x (ChasingEnemy.move g e) =
  e_x e + ch_speed e * ((Player.x (player g) - e_x e) / to_player g e).
Proof.
  intros H. apply dist_pos in H. unfold ChasingEnemy.move. simpl.
  rewrite cos_atan2 by assumption. unfold to_player, dist. ring.
Qed.

Lemma chasing_move_y (g : Game) (e : ChasingEnemyT) :
  0 < to_player g e ->
  e_y (ChasingEnemy.move g e) =
  e_y e + ch_speed e * ((Player.y (player g) - e_y e) / to_player g e).
Proof.
  intros H. apply dist_pos in H. unfold ChasingEnemy.move. simpl.
  rewrite sin_atan2 by assumption. unfold to_player, dist. ring.
Qed.

Lemma chasing_move_to_player (g : Game) (e : ChasingEnemyT) :
  0 < to_player g e ->
  to_player g (ChasingEnemy.move g e) = Rabs (to_player g e - ch_speed e).
Proof.
  intros H. unfold to_player at 1.
  rewrite chasing_move_x, chasing_move_y by assumption.
  now apply dist_step_toward.
Qed.

(** On the player the bearing is 0: the step goes along the x axis. *)
Lemma chasing_move_on_player (g : Game) (e : ChasingEnemyT) :
  Player.x (player g) = e_x e -> Player.y (player g) = e_y e ->
  e_x (ChasingEnemy.move g e) = e_x e + ch_speed e /\
  e_y (ChasingEnemy.move g e) = e_y e.
Proof.
  intros Hx Hy. unfold ChasingEnemy.move. simpl. rewrite Hx, Hy.
  replace (e_y e - e_y e) with 0 by ring. replace (e_x e - e_x e) with 0 by ring.
  rewrite atan2_0_0, cos_0, sin_0. split; ring.
Qed.

(** An enemy's update leaves the player where it is. *)
Lemma chasing_update_player (e : ChasingEnemyT) (g : Game) :
  player (exec (ChasingEnemy.update e) g) = player g.
Proof.
  unfold exec, ChasingEnemy.update, bind, get, when, ret. simpl.
  destruct (Enemy.hits_player _ _); reflexivity.
Qed.

(** Within half a step of the player, the unclamped step overshoots. *)
Lemma chasing_overshoots (e : ChasingEnemyT) (g : Game) :
  0 < to_player g e < ch_speed e / 2 ->
  to_player g e < to_player g (ChasingEnemy.move g e).
Proof.
  intros [H0 H1]. rewrite chasing_move_to_player by assumption.
  unfold Rabs. destruct (Rcase_abs _); lra.
Qed.

(** C6 (as amended: the chaser is more than half a step from the
    player).  For a chaser with speed [s > 0] at a distance [d > s / 2]
    from the player, an update that the arena bounds do not clamp leaves
    the player in place and brings the chaser to the distance [|d - s|],
    which is strictly less than [d]. *)
Theorem chasing_closes_in (e : ChasingEnemyT) (g : Game) :
  let e' := eval (ChasingEnemy.update e) g in
  let g' := exec (ChasingEnemy.update e) g in
  0 < ch_speed e ->
  ch_speed e / 2 < to_player g e ->
  ChasingEnemy.clamp g (ChasingEnemy.move g e) = ChasingEnemy.move g e ->
  player g' = player g /\
  to_player g' e' = Rabs (to_player g e - ch_speed e) /\
  to_player g' e' < to_player g e.
Proof.
  intros e' g' Hs Hd Hclamp.
  assert (Hp : player g' = player g) by apply chasing_update_player.
  assert (He : e' = ChasingEnemy.move g e).
  { unfold e'. now rewrite chasing_update_eval. }
  assert (Ht : to_player g' e' = Rabs (to_player g e - ch_speed e)).
  { unfold to_player at 1. rewrite Hp, He. fold (to_player g (ChasingEnemy.move g e)).
    apply chasing_move_to_player. lra. }
  split; [exact Hp |]. split; [exact Ht |].
  rewrite Ht. unfold Rabs. destruct (Rcase_abs _); lra.
Qed.

Lemma near_chaser_to_player : to_player arena_800_500 near_chaser = 10.
Proof.
  unfold to_player. destruct arena_player_pos as [-> ->]. unfold dist. simpl.
  replace ((50 - 60) * (50 - 60) + (250 - 250) * (250 - 250)) with (10 * 10) by ring.
  apply sqrt_square. lra.
Qed.

(** A chaser ten units to the right of the player. *)
Lemma chasing_closes_in_witness :
  0 < ch_speed near_chaser /\
  ch_speed near_chaser / 2 < to_player arena_800_500 near_chaser /\
  to_player (exec (ChasingEnemy.update near_chaser) arena_800_500)
            (eval (ChasingEnemy.update near_chaser) arena_800_500)
    < to_player arena_800_500 near_chaser.
Proof.
  assert (Hs : 0 < ch_speed near_chaser) by (simpl; lra).
  assert (Hd : ch_speed near_chaser / 2 < to_player arena_800_500 near_chaser)
    by (rewrite near_chaser_to_player; simpl; lra).
  assert (Hm : e_x (ChasingEnemy.move arena_800_500 near_chaser) = 58 /\
               e_y (ChasingEnemy.move arena_800_500 near_chaser) = 250).
  { rewrite chasing_move_x, chasing_move_y
      by (rewrite near_chaser_to_player; lra).
    rewrite near_chaser_to_player. destruct arena_player_pos as [-> ->].
    simpl. split; lra. }
  assert (Hc : ChasingEnemy.clamp arena_800_500
                 (ChasingEnemy.move arena_800_500 near_chaser)
               = ChasingEnemy.move arena_800_500 near_chaser).
  { destruct Hm as [Hx Hy]. apply chasing_clamp_id. unfold inside_arena.
    rewrite Hx, Hy. unfold Enemy.half. simpl. lra. }
  split; [exact Hs |]. split; [exact Hd |].
  exact (proj2 (proj2 (chasing_closes_in near_chaser arena_800_500 Hs Hd Hc))).
Defined.

(** C6 as stated fails: a chaser spawned on the player has bearing
    [atan2 0 0 = 0], steps two units along the x axis without being
    clamped, and its distance to the player grows from 0 to 2. *)
Lemma chaser_on_player_steps_away :
  let e := chaser_on_player in
  let g := arena_800_500 in
  let e' := eval (ChasingEnemy.update e) g in
  let g' := exec (ChasingEnemy.update e) g in
  0 < ch_speed e /\
  player g' = player g /\
  ChasingEnemy.clamp g (ChasingEnemy.move g e) = ChasingEnemy.move g e /\
  to_player g e = 0 /\ to_player g' e' = 2 /\
  ~ (to_player g' e' < to_player g e).
Proof.
  intros e g e' g'.
  assert (Hp : player g' = player g) by apply chasing_update_player.
  destruct arena_player_pos as [Hpx Hpy]. fold g in Hpx, Hpy.
  assert (Hm : e_x (ChasingEnemy.move g e) = 52 /\ e_y (ChasingEnemy.move g e) = 250).
  { destruct (chasing_move_on_player g e Hpx Hpy) as [-> ->]. simpl. split; lra. }
  assert (Hc : ChasingEnemy.clamp g (ChasingEnemy.move g e) = ChasingEnemy.move g e).
  { destruct Hm as [Hx Hy]. apply chasing_clamp_id. unfold inside_arena.
    rewrite Hx, Hy. unfold Enemy.half. simpl. lra. }
  assert (H0 : to_player g e = 0).
  { unfold to_player, dist. rewrite Hpx, Hpy. simpl.
    replace ((50 - 50) * (50 - 50) + (250 - 250) * (250 - 250)) with 0 by ring.
    apply sqrt_0. }
  assert (H2 : to_player g' e' = 2).
  { unfold to_player. rewrite Hp, Hpx, Hpy. unfold e'.
    rewrite chasing_update_eval, Hc. destruct Hm as [-> ->]. unfold dist.
    replace ((50 - 52) * (50 - 52) + (250 - 250) * (250 - 250)) with (2 * 2) by ring.
    apply sqrt_square. lra. }
  split; [simpl; lra |]. split; [exact Hp |]. split; [exact Hc |].
  split; [exact H0 |]. split; [exact H2 |]. rewrite H0, H2. lra.
Qed.

(** * Further properties *)

(** ** Every enemy update ends with the collision test *)

Lemma when_ret {E : Type} (b : bool) (c : M unit) (self : E) (g : Game) :
  bind (when b c) (fun _ => ret self) g = (self, if b then exec c g else g).
Proof.
  unfold bind, when, ret, exec. destruct b; simpl; [| reflexivity].
  destruct (c g) as [u g']. reflexivity.
Qed.

Lemma demo_update_exec (e : DemoEnemyT) (g : Game) :
  exec (DemoEnemy.update e) g = after_collision_test (eval (DemoEnemy.update e) g) g.
Proof.
  unfold exec, eval. unfold DemoEnemy.update at 1 2. unfold bind at 1 3, get.
  cbv zeta beta iota. rewrite when_ret. reflexivity.
Qed.

Lemma randomwalk_update_exec (e : RandomWalkEnemyT) (g : Game) :
  exec (RandomWalkEnemy.update e) g =
  after_collision_test (eval (RandomWalkEnemy.update e) g) g.
Proof.
  unfold exec, eval. unfold RandomWalkEnemy.update at 1 2. unfold bind at 1 3, get.
  cbv zeta beta iota. rewrite when_ret. reflexivity.
Qed.

Lemma chasing_update_exec (e : ChasingEnemyT) (g : Game) :
  exec (ChasingEnemy.update e) g =
  after_collision_test (eval (ChasingEnemy.update e) g) g.
Proof.
  unfold exec, eval. unfold ChasingEnemy.update at 1 2. unfold bind at 1 3, get.
  cbv zeta beta iota. rewrite when_ret. reflexivity.
Qed.

Lemma sin_update_exec (e : SinEnemyT) (g : Game) :
  exec (SinEnemy.update e) g =
  after_collision_test (eval (SinEnemy.update e) g) g.
Proof.
  unfold exec, eval. unfold SinEnemy.update at 1 2. unfold bind at 1 3, get.
  cbv zeta beta iota. rewrite when_ret. reflexivity.
Qed.

Lemma fencing_update_exec (e : FencingEnemyT) (g : Game) :
  exec (FencingEnemy.update e) g =
  match eval (FencingEnemy.update e) g with
  | Some e' => after_collision_test e' g
  | None => g
  end.
Proof.
  unfold exec, eval. unfold FencingEnemy.update.
  destruct (nth_error _ _) as [[dx dy] |]; [| reflexivity].
  unfold bind at 1 3, get. cbv zeta beta iota.
  match goal with
  | |- context [bind (when ?b ?c) (fun _ => ret (Some ?s)) g] =>
      rewrite (when_ret b c (Some s) g)
  end.
  reflexivity.
Qed.

(** A collision test leaves everything but the running flag and the
    effects as it was, and never restarts a stopped game. *)
Lemma after_collision_test_frame (e : EnemyT) (g : Game) :
  let g' := after_collision_test e g in
  (player g' = player g /\ waypoint g' = waypoint g /\ home g' = home g) /\
  (screen_width g' = screen_width g /\ screen_height g' = screen_height g) /\
  (elements g' = elements g /\ enemy_generator g' = enemy_generator g /\
   scheduled g' = scheduled g /\ draws g' = draws g) /\
  is_running g' = (is_running g && negb (Enemy.hits_player e g)) /\
  effects g' = effects g ++ (if Enemy.hits_player e g then lose_effects g else []).
Proof.
  unfold after_collision_test. destruct (Enemy.hits_player e g).
  - rewrite game_over_lose_exec. simpl. rewrite andb_false_r. repeat split.
  - simpl. rewrite andb_true_r, app_nil_r. repeat split.
Qed.

(** X1.  Every enemy update ends with the collision test on the state the
    enemy has just reached: the game it leaves is the game it found,
    except that when that state hits the player the game is stopped and
    the "You Lose" banner drawn.  Player, waypoint, home, arena, elements,
    counters and timers are never touched, and a stopped game is never
    restarted. *)
Theorem enemy_update_collision (g : Game) :
  (forall e : DemoEnemyT,
     collision_outcome (eval (DemoEnemy.update e) g) g (exec (DemoEnemy.update e) g)) /\
  (forall e : RandomWalkEnemyT,
     collision_outcome (eval (RandomWalkEnemy.update e) g) g
                       (exec (RandomWalkEnemy.update e) g)) /\
  (forall e : ChasingEnemyT,
     collision_outcome (eval (ChasingEnemy.update e) g) g
                       (exec (ChasingEnemy.update e) g)) /\
  (forall e : SinEnemyT,
     collision_outcome (eval (SinEnemy.update e) g) g (exec (SinEnemy.update e) g)) /\
  (forall (e : FencingEnemyT) (e' : FencingEnemyT),
     eval (FencingEnemy.update e) g = Some e' ->
     collision_outcome e' g (exec (FencingEnemy.update e) g)).
Proof.
  split; [| split; [| split; [| split]]].
  - intros e. rewrite demo_update_exec. apply after_collision_test_frame.
  - intros e. rewrite randomwalk_update_exec. apply after_collision_test_frame.
  - intros e. rewrite chasing_update_exec. apply after_collision_test_frame.
  - intros e. rewrite sin_update_exec. apply after_collision_test_frame.
  - intros e e' H. rewrite fencing_update_exec, H. apply after_collision_test_frame.
Qed.

Lemma run_enemy_S_eval {E : Type} (update : E -> M E) (n : nat) (e : E) (g : Game) :
  eval (run_enemy update (S n) e) g =
  eval (run_enemy update n (eval (update e) g)) (exec (update e) g).
Proof.
  unfold eval, exec. simpl. unfold bind. destruct (update e g). reflexivity.
Qed.

Lemma run_enemy_S_exec {E : Type} (update : E -> M E) (n : nat) (e : E) (g : Game) :
  exec (run_enemy update (S n) e) g =
  exec (run_enemy update n (eval (update e) g)) (exec (update e) g).
Proof.
  unfold eval, exec. simpl. unfold bind. destruct (update e g). reflexivity.
Qed.

(** ** The demo enemy, and the heading of a random walker *)

Lemma demo_update_eval (e : DemoEnemyT) (g : Game) :
  let e' := eval (DemoEnemy.update e) g in
  e_x e' = e_x e + 1 /\ e_y e' = e_y e + 1 /\
  e_size e' = e_size e /\ e_color e' = e_color e /\
  demo_direction e' =
    (let flip_x := Py.geb (e_x e + 1) (IZR (screen_width g)) || Py.leb (e_x e + 1) 0 in
     let flip_y := Py.geb (e_y e + 1) (IZR (screen_height g)) || Py.leb (e_y e + 1) 0 in
     if xorb flip_x flip_y then - demo_direction e else demo_direction e)%Z.
Proof.
  intros e'.
  assert (He : e' = fst (DemoEnemy.update e g)) by reflexivity.
  unfold DemoEnemy.update in He. unfold bind at 1, get in He.
  cbv zeta beta iota in He. rewrite when_ret in He. cbn [fst] in He.
  cbn [e_x e_y e_size e_color demo_base demo_direction DemoEnemy.set_x
       DemoEnemy.set_y DemoEnemy.set_direction Enemy.set_x Enemy.set_y] in He.
  clearbody e'. subst e'.
  destruct (Py.geb (e_x e + 1) (IZR (screen_width g)) || Py.leb (e_x e + 1) 0);
  cbn [e_x e_y e_size e_color demo_base demo_direction DemoEnemy.set_x
       DemoEnemy.set_y DemoEnemy.set_direction Enemy.set_x Enemy.set_y];
  destruct (Py.geb (e_y e + 1) (IZR (screen_height g)) || Py.leb (e_y e + 1) 0);
  cbn [e_x e_y e_size e_color demo_base demo_direction DemoEnemy.set_x
       DemoEnemy.set_y DemoEnemy.set_direction Enemy.set_x Enemy.set_y xorb];
  repeat split; try reflexivity; lia.
Qed.

(** [n] updates of a demo enemy. *)
Lemma demo_run (n : nat) :
  forall (e : DemoEnemyT) (g : Game),
    let e' := eval (run_enemy DemoEnemy.update n e) g in
    e_x e' = e_x e + INR n /\ e_y e' = e_y e + INR n /\
    e_size e' = e_size e /\
    (demo_direction e' = demo_direction e \/
     demo_direction e' = (- demo_direction e)%Z).
Proof.
  induction n as [| n IH]; intros e g.
  - cbv zeta. change (eval (run_enemy DemoEnemy.update 0 e) g) with e. simpl INR.
    split; [lra |]. split; [lra |]. split; [reflexivity | now left].
  - cbv zeta. rewrite run_enemy_S_eval.
    destruct (demo_update_eval e g) as (Hx & Hy & Hs & _ & Hd).
    destruct (IH (eval (DemoEnemy.update e) g) (exec (DemoEnemy.update e) g))
      as (Hx' & Hy' & Hs' & Hd').
    rewrite Hx', Hy', Hs', Hx, Hy, Hs, S_INR.
    split; [lra |]. split; [lra |]. split; [reflexivity |].
    cbv zeta in Hd. destruct (xorb _ _); rewrite Hd in Hd'; lia.
Qed.

Lemma horizontal_frame_fields (g : Game) (m : RandomWalkEnemyT) :
  let h := RandomWalkEnemy.horizontal_frame g m in
  e_y h = e_y m /\ e_size h = e_size m /\ rw_speed h = rw_speed m /\
  rw_direction h = (if touches_side g m then 180 - rw_direction m
                    else rw_direction m)%Z.
Proof.
  unfold RandomWalkEnemy.horizontal_frame, touches_side.
  change (Enemy.half (RandomWalkEnemy.set_direction (180 - rw_direction m) m))
    with (Enemy.half m).
  change (e_x (RandomWalkEnemy.set_direction (180 - rw_direction m) m)) with (e_x m).
  unfold Enemy.half.
  destruct (Py.geb (e_x m + IZR (e_size m) / 2) (IZR (screen_width g)));
  destruct (Py.leb (e_x m - IZR (e_size m) / 2) 0); simpl; repeat split.
Qed.

Lemma vertical_frame_fields (g : Game) (m : RandomWalkEnemyT) :
  let v := RandomWalkEnemy.vertical_frame g m in
  e_x v = e_x m /\ e_size v = e_size m /\ rw_speed v = rw_speed m /\
  rw_direction v = (if touches_top_or_bottom g m then - rw_direction m
                    else rw_direction m)%Z.
Proof.
  unfold RandomWalkEnemy.vertical_frame, touches_top_or_bottom.
  change (Enemy.half (RandomWalkEnemy.set_direction (- rw_direction m) m))
    with (Enemy.half m).
  change (e_y (RandomWalkEnemy.set_direction (- rw_direction m) m)) with (e_y m).
  unfold Enemy.half.
  destruct (Py.geb (e_y m + IZR (e_size m) / 2) (IZR (screen_height g)));
  destruct (Py.leb (e_y m - IZR (e_size m) / 2) 0); simpl; repeat split.
Qed.

(** One update of a random walker, as far as size, speed and heading go. *)
Lemma randomwalk_update_heading (e : RandomWalkEnemyT) (g : Game) :
  let m := RandomWalkEnemy.move e in
  let e' := eval (RandomWalkEnemy.update e) g in
  e_size e' = e_size e /\ rw_speed e' = rw_speed e /\
  rw_direction e' =
    (match touches_side g m, touches_top_or_bottom g m with
     | false, false => rw_direction e
     | true, false => 180 - rw_direction e
     | false, true => - rw_direction e
     | true, true => rw_direction e - 180
     end)%Z.
Proof.
  intros m e'.
  assert (He' : e' = RandomWalkEnemy.vertical_frame g
                       (RandomWalkEnemy.horizontal_frame g m))
    by apply randomwalk_update_eval.
  destruct (horizontal_frame_fields g m) as (Hy & Hsz & Hsp & Hd).
  destruct (vertical_frame_fields g (RandomWalkEnemy.horizontal_frame g m))
    as (_ & Hsz' & Hsp' & Hd').
  rewrite <- He' in Hsz', Hsp', Hd'.
  set (h := RandomWalkEnemy.horizontal_frame g m) in *.
  assert (Ht : touches_top_or_bottom g h = touches_top_or_bottom g m).
  { unfold touches_top_or_bottom. now rewrite Hy, Hsz. }
  rewrite Ht in Hd'.
  change (rw_direction m) with (rw_direction e) in Hd.
  change (rw_speed m) with (rw_speed e) in Hsp.
  change (e_size m) with (e_size e) in Hsz.
  split; [now rewrite Hsz', Hsz |]. split; [now rewrite Hsp', Hsp |].
  rewrite Hd', Hd.
  destruct (touches_side g m), (touches_top_or_bottom g m); lia.
Qed.

(** Either reflection, or both, keeps a heading mirrored. *)
Lemma mirrored_step (d d1 d2 : Z) :
  mirrored d d1 ->
  (d2 = d1 \/ d2 = 180 - d1 \/ d2 = - d1 \/ d2 = d1 - 180)%Z ->
  mirrored d d2.
Proof.
  unfold mirrored. intros H1 H2.
  assert (D : forall a : Z, (a mod 180 = 0 <-> exists c, a = 180 * c)%Z)
    by (intros a; apply Zmod_divides; lia).
  rewrite !D in *.
  destruct H1 as [[c Hc] | [c Hc]];
  destruct H2 as [-> | [-> | [-> | ->]]].
  - left. exists c. lia.
  - right. exists (1 - c)%Z. lia.
  - right. exists (- c)%Z. lia.
  - left. exists (c - 1)%Z. lia.
  - right. exists c. lia.
  - left. exists (1 - c)%Z. lia.
  - left. exists (- c)%Z. lia.
  - right. exists (c - 1)%Z. lia.
Qed.

(** X3.  The integer heading of a random walker changes by reflection
    only.  One update turns the heading [d] into [180 - d] when the moved
    enemy touches the left or right wall only, into [- d] when it touches
    the top or bottom wall only, into [d - 180] when it touches both, and
    leaves it alone otherwise (the touch tests taken on the moved
    position in exact arithmetic).  So after any number of updates the
    size and the speed are unchanged and the heading is [d] or [- d] up to
    a multiple of 180. *)
Theorem random_walk_heading (g : Game) (e : RandomWalkEnemyT) :
  (let m := RandomWalkEnemy.move e in
   let e' := eval (RandomWalkEnemy.update e) g in
   rw_direction e' =
     (match touches_side g m, touches_top_or_bottom g m with
      | false, false => rw_direction e
      | true, false => 180 - rw_direction e
      | false, true => - rw_direction e
      | true, true => rw_direction e - 180
      end)%Z) /\
  (forall n : nat,
     let en := eval (run_enemy RandomWalkEnemy.update n e) g in
     e_size en = e_size e /\ rw_speed en = rw_speed e /\
     mirrored (rw_direction e) (rw_direction en)).
Proof.
  split.
  - apply randomwalk_update_heading.
  - intros n.
    assert (G : forall (e1 : RandomWalkEnemyT) (g1 : Game),
              mirrored (rw_direction e) (rw_direction e1) ->
              let en := eval (run_enemy RandomWalkEnemy.update n e1) g1 in
              e_size en = e_size e1 /\ rw_speed en = rw_speed e1 /\
              mirrored (rw_direction e) (rw_direction en)).
    { induction n as [| n IH]; intros e1 g1 H1.
      - cbv zeta. change (eval (run_enemy RandomWalkEnemy.update 0 e1) g1) with e1.
        repeat split. exact H1.
      - cbv zeta. rewrite run_enemy_S_eval.
        destruct (randomwalk_update_heading e1 g1) as (Hs & Hsp & Hd).
        destruct (IH (eval (RandomWalkEnemy.update e1) g1)
                     (exec (RandomWalkEnemy.update e1) g1)) as (Hs' & Hsp' & Hm').
        + apply (mirrored_step _ (rw_direction e1)); [exact H1 |].
          rewrite Hd.
          destruct (touches_side _ _), (touches_top_or_bottom _ _); lia.
        + rewrite Hs', Hsp', Hs, Hsp. repeat split. exact Hm'. }
    apply G. unfold mirrored. left.
    replace (rw_direction e - rw_direction e)%Z with 0%Z by lia. reflexivity.
Qed.

(** ** The round of a fencing enemy *)

Lemma fencing_update_eval (e : FencingEnemyT) (g : Game) :
  eval (FencingEnemy.update e) g =
  match nth_error (fe_directions e) (Z.to_nat (fe_current_direction_index e)) with
  | None => None
  | Some (dx, dy) => Some (fencing_moved dx dy e)
  end.
Proof.
  unfold eval, FencingEnemy.update.
  destruct (nth_error _ _) as [[dx dy] |]; [| reflexivity].
  unfold bind at 1, get. cbv zeta beta iota.
  match goal with
  | |- context [bind (when ?b ?c) (fun _ => ret (Some ?s)) g] =>
      rewrite (when_ret b c (Some s) g)
  end.
  reflexivity.
Qed.

Ltac fencing_fields :=
  cbn [e_x e_y e_size e_color fe_base fe_directions fe_current_direction_index
       fe_home_x fe_home_y fe_offset fe_speed FencingEnemy.set_x
       FencingEnemy.set_y FencingEnemy.set_current_direction_index
       Enemy.set_x Enemy.set_y andb Z.eqb Pos.eqb] in *.

(** One update keeps a fencing enemy on its round. *)
Lemma fencing_step_on_patrol (e : FencingEnemyT) (g : Game) :
  on_patrol e ->
  exists e', eval (FencingEnemy.update e) g = Some e' /\ on_patrol e' /\
             fe_home_x e' = fe_home_x e /\ fe_home_y e' = fe_home_y e /\
             fe_offset e' = fe_offset e /\ fe_speed e' = fe_speed e /\
             e_size e' = e_size e.
Proof.
  intros (Hdirs & Hoff & Hsp & Hbx & Hby & Hleg).
  rewrite fencing_update_eval, Hdirs.
  destruct Hleg as [(Hi & H1 & H2) | [(Hi & H1 & H2) | [(Hi & H1 & H2) | (Hi & H1 & H2)]]];
  rewrite Hi; cbn [Z.to_nat Pos.to_nat Pos.iter_op Nat.add nth_error];
  eexists; (split; [reflexivity |]);
  unfold fencing_moved; fencing_fields; rewrite Hi;
  rewrite ?Rmult_0_l, ?Rmult_1_l, ?Rplus_0_r, ?andb_false_r, ?andb_true_r;
  cbv iota.
  - (* right *)
    case_cmp (Py.geb (e_x e + fe_speed e) (fe_home_x e + fe_offset e));
    fencing_fields; unfold on_patrol; fencing_fields;
    (split; [split; [exact Hdirs |]; repeat split; try lra | repeat split]).
    + right. left. repeat split; lra.
    + left. rewrite Hi. repeat split; lra.
  - (* down *)
    case_cmp (Py.geb (e_y e + fe_speed e) (fe_home_y e + fe_offset e));
    fencing_fields; unfold on_patrol; fencing_fields;
    (split; [split; [exact Hdirs |]; repeat split; try lra | repeat split]).
    + right. right. left. repeat split; lra.
    + right. left. rewrite Hi. repeat split; lra.
  - (* left *)
    replace (e_x e + -1 * fe_speed e) with (e_x e - fe_speed e) by ring.
    case_cmp (Py.leb (e_x e - fe_speed e) (fe_home_x e - fe_offset e));
    fencing_fields; unfold on_patrol; fencing_fields;
    (split; [split; [exact Hdirs |]; repeat split; try lra | repeat split]).
    + right. right. right. repeat split; lra.
    + right. right. left. rewrite Hi. repeat split; lra.
  - (* up *)
    replace (e_y e + -1 * fe_speed e) with (e_y e - fe_speed e) by ring.
    case_cmp (Py.leb (e_y e - fe_speed e) (fe_home_y e - fe_offset e));
    fencing_fields; unfold on_patrol; fencing_fields;
    (split; [split; [exact Hdirs |]; repeat split; try lra | repeat split]).
    + left. repeat split; lra.
    + right. right. right. rewrite Hi. repeat split; lra.
Qed.

Lemma eval_bind {A B : Type} (c : M A) (k : A -> M B) (g : Game) :
  eval (bind c k) g = eval (k (eval c g)) (exec c g).
Proof. unfold eval, exec, bind. destruct (c g). reflexivity. Qed.

Lemma exec_bind {A B : Type} (c : M A) (k : A -> M B) (g : Game) :
  exec (bind c k) g = exec (k (eval c g)) (exec c g).
Proof. unfold eval, exec, bind. destruct (c g). reflexivity. Qed.

Lemma fencing_run_on_patrol (n : nat) :
  forall (e : FencingEnemyT) (g : Game),
    on_patrol e ->
    exists e', eval (fencing_run n e) g = Some e' /\ on_patrol e' /\
               fe_home_x e' = fe_home_x e /\ fe_home_y e' = fe_home_y e /\
               fe_offset e' = fe_offset e /\ fe_speed e' = fe_speed e /\
               e_size e' = e_size e.
Proof.
  induction n as [| n IH]; intros e g H.
  - exists e. repeat split; try reflexivity; apply H.
  - destruct (fencing_step_on_patrol e g H) as (e1 & He1 & H1 & Hx & Hy & Ho & Hs & Hz).
    destruct (IH e1 (exec (FencingEnemy.update e) g) H1)
      as (e' & He' & H' & Hx' & Hy' & Ho' & Hs' & Hz').
    exists e'. cbn [fencing_run]. rewrite eval_bind, He1.
    split; [exact He' |]. split; [exact H' |].
    rewrite Hx', Hy', Ho', Hs', Hz'. repeat split; assumption.
Qed.

Lemma built_on_patrol (g : Game) (size : Z) (color : string) (speed : R) :
  0 < speed -> (-40 < home_size (home g))%Z ->
  on_patrol (eval (FencingEnemy.init size color speed) g).
Proof.
  intros Hs Hh.
  assert (Ho : 0 < IZR FencingEnemy.HOME_OFFSET + IZR (home_size (home g)) / 2).
  { assert (IZR (-40) < IZR (home_size (home g))) by now apply IZR_lt.
    unfold FencingEnemy.HOME_OFFSET. lra. }
  unfold on_patrol, eval, FencingEnemy.init, bind, get, ret, Home.size. simpl.
  split; [reflexivity |]. split; [exact Ho |]. split; [exact Hs |].
  split; [lra |]. split; [lra |]. left. repeat split; lra.
Qed.

Lemma spawned_on_patrol (g : Game) :
  (-40 < home_size (home g))%Z -> on_patrol (fencing_spawn g).
Proof.
  intros Hh.
  assert (Ho : 0 < IZR FencingEnemy.HOME_OFFSET + IZR (home_size (home g)) / 2).
  { assert (IZR (-40) < IZR (home_size (home g))) by now apply IZR_lt.
    unfold FencingEnemy.HOME_OFFSET. lra. }
  unfold on_patrol, fencing_spawn. simpl.
  split; [reflexivity |]. split; [exact Ho |]. split; [lra |].
  split; [lra |]. split; [lra |]. left. repeat split; lra.
Qed.

(** X4.  A fencing enemy, as the constructor builds it or as a batch
    spawns it, around a home of size greater than -40: no update fails on
    the direction table, the direction index stays within 0..3, and on
    both axes the enemy stays less than [offset + speed] from home, with
    [offset = 20 + home.size / 2]. *)
Theorem fencing_never_strays (g0 g : Game) (e : FencingEnemyT) (n : nat) :
  (-40 < home_size (home g0))%Z ->
  (In (ElFencing e) (spawned g0) \/
   exists (size : Z) (color : string) (speed : R),
     0 < speed /\ e = eval (FencingEnemy.init size color speed) g0) ->
  exists e',
    eval (fencing_run n e) g = Some e' /\
    (0 <= fe_current_direction_index e' <= 3)%Z /\
    Rabs (e_x e' - home_x (home g0))
      < 20 + IZR (home_size (home g0)) / 2 + fe_speed e /\
    Rabs (e_y e' - home_y (home g0))
      < 20 + IZR (home_size (home g0)) / 2 + fe_speed e.
Proof.
  intros Hh Hfrom.
  assert (He : on_patrol e /\ fe_home_x e = home_x (home g0) /\
               fe_home_y e = home_y (home g0) /\
               fe_offset e = 20 + IZR (home_size (home g0)) / 2).
  { destruct Hfrom as [Hin | (size & color & speed & Hs & ->)].
    - apply in_batch_fencing in Hin. subst e.
      split; [now apply spawned_on_patrol |]. repeat split.
    - split; [now apply built_on_patrol |]. repeat split. }
  destruct He as (Hp & Hx & Hy & Ho).
  destruct (fencing_run_on_patrol n e g Hp)
    as (e' & He' & (_ & _ & _ & Hbx & Hby & Hleg) & Hx' & Hy' & Ho' & Hs' & _).
  exists e'. split; [exact He' |].
  rewrite Hx', Hy', Ho', Hs', Hx, Hy, Ho in *.
  split.
  - destruct Hleg as [(Hi & _) | [(Hi & _) | [(Hi & _) | (Hi & _)]]]; rewrite Hi; lia.
  - split; apply Rabs_def1; lra.
Qed.

(** The fencing enemy of the first batch, a thousand updates later. *)
Lemma fencing_never_strays_witness :
  exists e',
    eval (fencing_run 1000 (fencing_spawn arena_800_500)) arena_800_500 = Some e' /\
    Rabs (e_x e' - 700) < 20 + 20 / 2 + 1.
Proof.
  assert (Hh : (-40 < home_size (home arena_800_500))%Z) by (rewrite arena_home; simpl; lia).
  assert (Hin : In (ElFencing (fencing_spawn arena_800_500)) (spawned arena_800_500)).
  { rewrite spawned_batch. simpl. tauto. }
  destruct (fencing_never_strays arena_800_500 arena_800_500 _ 1000 Hh (or_introl Hin))
    as (e' & He' & _ & Hx & _).
  exists e'. split; [exact He' |].
  rewrite arena_home in Hx. exact Hx.
Defined.

(** ** The legs of the round *)

Lemma fencing_run_add (a b : nat) :
  forall (e : FencingEnemyT) (g : Game),
    eval (fencing_run (a + b) e) g =
    match eval (fencing_run a e) g with
    | Some e' => eval (fencing_run b e') (exec (fencing_run a e) g)
    | None => None
    end.
Proof.
  induction a as [| a IH]; intros e g; [reflexivity |].
  cbn [Nat.add fencing_run]. rewrite !eval_bind, exec_bind.
  destruct (eval (FencingEnemy.update e) g) as [e1 |]; [apply IH | reflexivity].
Qed.

Section Legs.

Variable e0 : FencingEnemyT.
Hypothesis four_directions :
  fe_directions e0 = [(1, 0); (0, 1); (-1, 0); (0, -1)]%Z.
Hypothesis positive_speed : 0 < fe_speed e0.

Let hx := fe_home_x e0.
Let hy := fe_home_y e0.
Let off := fe_offset e0.
Let s := fe_speed e0.

Ltac one_step :=
  rewrite fencing_update_eval; cbn [fencing_at fe_directions
    FencingEnemy.set_current_direction_index FencingEnemy.set_y
    FencingEnemy.set_x fe_current_direction_index];
  rewrite four_directions;
  change (Z.to_nat 0) with 0%nat; change (Z.to_nat 1) with 1%nat;
  change (Z.to_nat 2) with 2%nat; change (Z.to_nat 3) with 3%nat;
  cbn [nth_error];
  unfold fencing_moved, fencing_at, s, hx, hy, off; fencing_fields;
  rewrite ?Rmult_0_l, ?Rmult_1_l, ?Rplus_0_r, ?andb_false_r, ?andb_true_r;
  cbv iota.

Lemma step_right (x y : R) (g : Game) :
  eval (FencingEnemy.update (fencing_at x y 0 e0)) g =
  Some (fencing_at (x + s) y (if Py.geb (x + s) (hx + off) then 1 else 0) e0).
Proof.
  one_step. destruct (Py.geb _ _); reflexivity.
Qed.

Lemma step_down (x y : R) (g : Game) :
  eval (FencingEnemy.update (fencing_at x y 1 e0)) g =
  Some (fencing_at x (y + s) (if Py.geb (y + s) (hy + off) then 2 else 1) e0).
Proof.
  one_step. destruct (Py.geb _ _); reflexivity.
Qed.

Lemma step_left (x y : R) (g : Game) :
  eval (FencingEnemy.update (fencing_at x y 2 e0)) g =
  Some (fencing_at (x + -1 * s) y
          (if Py.leb (x + -1 * s) (hx - off) then 3 else 2) e0).
Proof.
  one_step. destruct (Py.leb _ _); reflexivity.
Qed.

Lemma step_up (x y : R) (g : Game) :
  eval (FencingEnemy.update (fencing_at x y 3 e0)) g =
  Some (fencing_at x (y + -1 * s)
          (if Py.leb (y + -1 * s) (hy - off) then 0 else 3) e0).
Proof.
  one_step. destruct (Py.leb _ _); reflexivity.
Qed.

Lemma steps_positive (j : nat) : (1 <= j)%nat -> 0 < INR j * s.
Proof.
  intros H. apply Rmult_lt_0_compat; [| exact positive_speed].
  apply lt_0_INR. lia.
Qed.

Ltac last_or_more j IH :=
  destruct j as [| j];
  [ cbn [INR] in *; cbn [fencing_run]
  | pose proof (steps_positive (S j) ltac:(lia)) ].

Lemma leg_right (j : nat) :
  forall (x y : R) (g : Game),
    (1 <= j)%nat -> x + INR j * s = hx + off ->
    eval (fencing_run j (fencing_at x y 0 e0)) g = Some (fencing_at (hx + off) y 1 e0).
Proof.
  induction j as [| j IH]; intros x y g Hj Hx; [lia |].
  cbn [fencing_run]. rewrite eval_bind, step_right. rewrite S_INR in Hx.
  last_or_more j IH.
  - replace (Py.geb (x + s) (hx + off)) with true
      by (symmetry; apply geb_true_iff; lra).
    replace (x + s) with (hx + off) by lra. reflexivity.
  - replace (Py.geb (x + s) (hx + off)) with false
      by (symmetry; apply geb_false_iff; lra).
    apply IH; [lia | lra].
Qed.

Lemma leg_down (j : nat) :
  forall (x y : R) (g : Game),
    (1 <= j)%nat -> y + INR j * s = hy + off ->
    eval (fencing_run j (fencing_at x y 1 e0)) g = Some (fencing_at x (hy + off) 2 e0).
Proof.
  induction j as [| j IH]; intros x y g Hj Hy; [lia |].
  cbn [fencing_run]. rewrite eval_bind, step_down. rewrite S_INR in Hy.
  last_or_more j IH.
  - replace (Py.geb (y + s) (hy + off)) with true
      by (symmetry; apply geb_true_iff; lra).
    replace (y + s) with (hy + off) by lra. reflexivity.
  - replace (Py.geb (y + s) (hy + off)) with false
      by (symmetry; apply geb_false_iff; lra).
    apply IH; [lia | lra].
Qed.

Lemma leg_left (j : nat) :
  forall (x y : R) (g : Game),
    (1 <= j)%nat -> x - INR j * s = hx - off ->
    eval (fencing_run j (fencing_at x y 2 e0)) g = Some (fencing_at (hx - off) y 3 e0).
Proof.
  induction j as [| j IH]; intros x y g Hj Hx; [lia |].
  cbn [fencing_run]. rewrite eval_bind, step_left. rewrite S_INR in Hx.
  last_or_more j IH.
  - replace (Py.leb (x + -1 * s) (hx - off)) with true
      by (symmetry; apply leb_true_iff; lra).
    replace (x + -1 * s) with (hx - off) by lra. reflexivity.
  - replace (Py.leb (x + -1 * s) (hx - off)) with false
      by (symmetry; apply leb_false_iff; lra).
    apply IH; [lia | lra].
Qed.

Lemma leg_up (j : nat) :
  forall (x y : R) (g : Game),
    (1 <= j)%nat -> y - INR j * s = hy - off ->
    eval (fencing_run j (fencing_at x y 3 e0)) g = Some (fencing_at x (hy - off) 0 e0).
Proof.
  induction j as [| j IH]; intros x y g Hj Hy; [lia |].
  cbn [fencing_run]. rewrite eval_bind, step_up. rewrite S_INR in Hy.
  last_or_more j IH.
  - replace (Py.leb (y + -1 * s) (hy - off)) with true
      by (symmetry; apply leb_true_iff; lra).
    replace (y + -1 * s) with (hy - off) by lra. reflexivity.
  - replace (Py.leb (y + -1 * s) (hy - off)) with false
      by (symmetry; apply leb_false_iff; lra).
    apply IH; [lia | lra].
Qed.

(** A full round from the top left corner: four legs of [k] steps. *)
Lemma round_from_corner (k : nat) (g : Game) :
  (1 <= k)%nat -> 2 * off = INR k * s ->
  eval (fencing_run (k + (k + (k + k))) (fencing_at (hx - off) (hy - off) 0 e0)) g
  = Some (fencing_at (hx - off) (hy - off) 0 e0).
Proof.
  intros Hk Hside.
  rewrite fencing_run_add, leg_right by (try lia; lra).
  rewrite fencing_run_add, leg_down by (try lia; lra).
  rewrite fencing_run_add, leg_left by (try lia; lra).
  apply leg_up; [lia | lra].
Qed.

(** From the centre of the square: half a leg right, half a leg down,
    then two full legs bring the enemy to the top left corner. *)
Lemma corner_from_centre (k : nat) (g : Game) :
  (1 <= k)%nat -> off = INR k * s ->
  eval (fencing_run (k + (k + ((k + k) + (k + k)))) (fencing_at hx hy 0 e0)) g
  = Some (fencing_at (hx - off) (hy - off) 0 e0).
Proof.
  intros Hk Hside.
  assert (H2 : INR (k + k) = 2 * INR k) by (rewrite plus_INR; ring).
  rewrite fencing_run_add, leg_right by (try lia; lra).
  rewrite fencing_run_add, leg_down by (try lia; lra).
  rewrite fencing_run_add, leg_left by (try lia; rewrite H2; lra).
  apply leg_up; [lia | rewrite H2; lra].
Qed.

End Legs.

Lemma built_is_at_corner (g : Game) (size : Z) (color : string) (speed : R) :
  let built := eval (FencingEnemy.init size color speed) g in
  built = fencing_at (fe_home_x built - fe_offset built)
                     (fe_home_y built - fe_offset built) 0 built /\
  fe_directions built = [(1, 0); (0, 1); (-1, 0); (0, -1)]%Z /\
  fe_speed built = speed /\
  fe_offset built = 20 + IZR (home_size (home g)) / 2.
Proof. repeat split. Qed.

(** X5.  The round closes.  When the side of the patrol square,
    [2 * offset], is [k] steps long, [4 * k] updates bring a fencing
    enemy built by the constructor back to the very state it started in;
    hence so does any number of rounds. *)
Theorem fencing_patrol_closure (g0 g : Game) (size : Z) (color : string)
    (speed : R) (k rounds : nat) :
  0 < speed -> (1 <= k)%nat ->
  2 * (20 + IZR (home_size (home g0)) / 2) = INR k * speed ->
  let built := eval (FencingEnemy.init size color speed) g0 in
  eval (fencing_run (rounds * (4 * k)) built) g = Some built.
Proof.
  intros Hs Hk Hside built.
  destruct (built_is_at_corner g0 size color speed) as (Hat & Hd & Hsp & Ho).
  fold built in Hat, Hd, Hsp, Ho.
  assert (Hround : forall g', eval (fencing_run (4 * k) built) g' = Some built).
  { intros g'. rewrite Hat at 1 2.
    replace (4 * k)%nat with (k + (k + (k + k)))%nat by lia.
    apply round_from_corner.
    - exact Hd.
    - now rewrite Hsp.
    - exact Hk.
    - now rewrite Ho, Hsp. }
  revert g. induction rounds as [| r IH]; intros g; [reflexivity |].
  cbn [Nat.mul]. rewrite fencing_run_add, Hround. apply IH.
Qed.

(** Three rounds of 240 updates around the home of [arena_800_500]. *)
Lemma fencing_patrol_closure_witness :
  eval (fencing_run (3 * (4 * 60))
         (eval (FencingEnemy.init 10 "lightgreen" 1) arena_800_500)) arena_800_500
  = Some (eval (FencingEnemy.init 10 "lightgreen" 1) arena_800_500).
Proof.
  apply (fencing_patrol_closure arena_800_500 arena_800_500 10 "lightgreen" 1 60 3).
  - lra.
  - lia.
  - rewrite arena_home. simpl. lra.
Defined.

(** X6.  A fencing enemy spawned by a batch starts on the centre of home;
    when the offset is [k] steps of its speed 1, after [6 * k] updates it
    stands on the top left corner in exactly the state the constructor
    would have built, and patrols the square from there. *)
Theorem spawned_fencing_joins_patrol (g0 g : Game) (f : FencingEnemyT) (k : nat) :
  In (ElFencing f) (spawned g0) ->
  (1 <= k)%nat ->
  20 + IZR (home_size (home g0)) / 2 = INR k ->
  eval (fencing_run (6 * k) f) g
  = Some (eval (FencingEnemy.init 10 "lightgreen" 1) g0).
Proof.
  intros Hin Hk Hside. apply in_batch_fencing in Hin. subst f.
  set (built := eval (FencingEnemy.init 10 "lightgreen" 1) g0).
  destruct (built_is_at_corner g0 10 "lightgreen" 1) as (Hat & Hd & Hsp & Ho).
  fold built in Hat, Hd, Hsp, Ho.
  change (fencing_spawn g0)
    with (fencing_at (fe_home_x built) (fe_home_y built) 0 built).
  rewrite Hat at 4.
  replace (6 * k)%nat with (k + (k + ((k + k) + (k + k))))%nat by lia.
  apply corner_from_centre.
  - exact Hd.
  - rewrite Hsp. lra.
  - exact Hk.
  - rewrite Ho, Hsp. lra.
Qed.

(** 180 updates around the home of [arena_800_500]. *)
Lemma spawned_fencing_joins_patrol_witness :
  eval (fencing_run (6 * 30) (fencing_spawn arena_800_500)) arena_800_500
  = Some (eval (FencingEnemy.init 10 "lightgreen" 1) arena_800_500).
Proof.
  apply (spawned_fencing_joins_patrol arena_800_500 arena_800_500 _ 30).
  - rewrite spawned_batch. simpl. tauto.
  - lia.
  - rewrite arena_home. simpl. lra.
Defined.

(** ** A chaser and a player that stands still *)

Lemma Rabs_le_bounds (a b : R) : Rabs a <= b -> - b <= a <= b.
Proof. unfold Rabs. destruct (Rcase_abs a); lra. Qed.

Lemma dist_nonneg (x y tx ty : R) : 0 <= dist x y tx ty.
Proof. apply sqrt_pos. Qed.

Lemma dist_coordinates (x y tx ty : R) :
  Rabs (tx - x) <= dist x y tx ty /\ Rabs (ty - y) <= dist x y tx ty.
Proof.
  pose proof (Rle_0_sqr (tx - x)) as Hx. pose proof (Rle_0_sqr (ty - y)) as Hy.
  unfold dist. split; rewrite <- sqrt_Rsqr_abs; apply sqrt_le_1_alt;
  unfold Rsqr in *; lra.
Qed.

Lemma dist_zero (x y tx ty : R) : dist x y tx ty = 0 -> tx = x /\ ty = y.
Proof.
  intros H. destruct (dist_coordinates x y tx ty) as [Hx Hy]. rewrite H in Hx, Hy.
  pose proof (Rabs_pos (tx - x)). pose proof (Rabs_pos (ty - y)).
  assert (Rabs (tx - x) = 0) by lra. assert (Rabs (ty - y) = 0) by lra.
  split; apply Rminus_diag_uniq.
  - destruct (Req_dec (tx - x) 0) as [E | E]; [exact E |].
    apply Rabs_no_R0 in E. contradiction.
  - destruct (Req_dec (ty - y) 0) as [E | E]; [exact E |].
    apply Rabs_no_R0 in E. contradiction.
Qed.

(** Clamping an enemy does not take it further from a player that is clear
    of the walls, on either axis. *)
Lemma chasing_clamp_closer (g : Game) (m : ChasingEnemyT) (r : R) :
  player_clear_of_walls g (e_size m) ->
  Rabs (Player.x (player g) - e_x m) <= r ->
  Rabs (Player.y (player g) - e_y m) <= r ->
  let c := ChasingEnemy.clamp g m in
  e_size c = e_size m /\
  Rabs (Player.x (player g) - e_x c) <= r /\
  Rabs (Player.y (player g) - e_y c) <= r.
Proof.
  intros [Hpx Hpy] Hx Hy. fold (Enemy.half m) in Hpx, Hpy.
  apply Rabs_le_bounds in Hx. apply Rabs_le_bounds in Hy.
  unfold ChasingEnemy.clamp.
  case_cmp (Py.ltb (e_x m - Enemy.half m) 0);
  [| case_cmp (Py.gtb (e_x m + Enemy.half m) (IZR (screen_width g)))];
  match goal with
  | |- context [Py.ltb (e_y ?a - Enemy.half ?a) 0] =>
      change (e_y a) with (e_y m); change (Enemy.half a) with (Enemy.half m)
  end;
  (case_cmp (Py.ltb (e_y m - Enemy.half m) 0);
   [| case_cmp (Py.gtb (e_y m + Enemy.half m) (IZR (screen_height g)))]);
  cbn [e_x e_y e_size ch_base ChasingEnemy.set_x ChasingEnemy.set_y
       Enemy.set_x Enemy.set_y];
  (split; [reflexivity |]); split; apply Rabs_le; lra.
Qed.

(** Within one step of the player, a chaser slower than half its size
    ends its update on the player. *)
Lemma chasing_reaches (g : Game) (e : ChasingEnemyT) :
  player_clear_of_walls g (e_size e) ->
  0 < ch_speed e < IZR (e_size e) / 2 ->
  to_player g e < ch_speed e ->
  Enemy.hits_player (eval (ChasingEnemy.update e) g) g = true.
Proof.
  intros Hclear [Hs Hhalf] Hd.
  rewrite chasing_update_eval.
  set (m := ChasingEnemy.move g e).
  assert (Hm : Rabs (Player.x (player g) - e_x m) <= ch_speed e /\
               Rabs (Player.y (player g) - e_y m) <= ch_speed e).
  { destruct (Rle_lt_or_eq_dec 0 (to_player g e) (dist_nonneg _ _ _ _)) as [Hpos | H0].
    - pose proof (chasing_move_to_player g e Hpos) as Hto. fold m in Hto.
      destruct (dist_coordinates (e_x m) (e_y m)
                  (Player.x (player g)) (Player.y (player g))) as [Hx Hy].
      fold (to_player g m) in Hx, Hy. rewrite Hto in Hx, Hy.
      assert (Rabs (to_player g e - ch_speed e) <= ch_speed e)
        by (apply Rabs_le; lra).
      split; lra.
    - symmetry in H0. apply dist_zero in H0. destruct H0 as [Hx Hy].
      destruct (chasing_move_on_player g e Hx Hy) as [Hmx Hmy]. fold m in Hmx, Hmy.
      rewrite Hmx, Hmy, Hx, Hy. split; apply Rabs_le; lra. }
  destruct Hm as [Hmx Hmy].
  destruct (chasing_clamp_closer g m (ch_speed e) Hclear Hmx Hmy) as (Hsz & Hcx & Hcy).
  apply Rabs_le_bounds in Hcx. apply Rabs_le_bounds in Hcy.
  apply hits_player_true_iff. unfold Enemy.half. rewrite Hsz.
  change (e_size m) with (e_size e). split; lra.
Qed.

(** A full step or more from the player, a chaser inside the arena goes
    straight and is not clamped. *)
Lemma chasing_approaches (g : Game) (e : ChasingEnemyT) :
  player_clear_of_walls g (e_size e) ->
  inside_arena g e ->
  0 < ch_speed e <= to_player g e ->
  let e' := eval (ChasingEnemy.update e) g in
  inside_arena g e' /\ to_player g e' = to_player g e - ch_speed e /\
  e_size e' = e_size e /\ ch_speed e' = ch_speed e.
Proof.
  intros [Hpx Hpy] [Hex Hey] [Hs Hd] e'. fold (Enemy.half e) in Hpx, Hpy.
  assert (Hpos : 0 < to_player g e) by lra.
  set (m := ChasingEnemy.move g e).
  set (t := ch_speed e / to_player g e).
  assert (Ht : 0 <= t <= 1).
  { unfold t. split.
    - apply Rlt_le, Rdiv_lt_0_compat; assumption.
    - apply (Rmult_le_reg_r (to_player g e)); [assumption |].
      replace (ch_speed e / to_player g e * to_player g e) with (ch_speed e)
        by (field; lra). lra. }
  assert (Hmx : e_x m = e_x e + t * (Player.x (player g) - e_x e)).
  { unfold m, t. rewrite chasing_move_x by assumption. field. lra. }
  assert (Hmy : e_y m = e_y e + t * (Player.y (player g) - e_y e)).
  { unfold m, t. rewrite chasing_move_y by assumption. field. lra. }
  assert (Hin : inside_arena g m).
  { unfold inside_arena. change (Enemy.half m) with (Enemy.half e).
    rewrite Hmx, Hmy. split; split; nra. }
  assert (He' : e' = m).
  { unfold e'. rewrite chasing_update_eval. now apply chasing_clamp_id. }
  rewrite He'. split; [exact Hin |]. split.
  - unfold m. rewrite chasing_move_to_player by assumption. apply Rabs_right. lra.
  - split; reflexivity.
Qed.

Lemma chasing_update_frame (e : ChasingEnemyT) (g : Game) :
  let e' := eval (ChasingEnemy.update e) g in
  let g' := exec (ChasingEnemy.update e) g in
  player g' = player g /\ screen_width g' = screen_width g /\
  screen_height g' = screen_height g /\
  is_running g' = (is_running g && negb (Enemy.hits_player e' g)) /\
  banners (effects g') =
    (banners (effects g) + (if Enemy.hits_player e' g then 1 else 0))%nat.
Proof.
  cbv zeta. rewrite chasing_update_exec.
  destruct (after_collision_test_frame (eval (ChasingEnemy.update e) g) g)
    as ((Hp & _) & (Hw & Hh) & _ & Hr & He).
  rewrite Hp, Hw, Hh, Hr, He, banners_app.
  repeat split. now destruct (Enemy.hits_player _ g).
Qed.

Lemma chasing_run_frame (n : nat) :
  forall (e : ChasingEnemyT) (g : Game),
    let g' := exec (run_enemy ChasingEnemy.update n e) g in
    player g' = player g /\ screen_width g' = screen_width g /\
    screen_height g' = screen_height g /\
    (is_running g = false -> is_running g' = false) /\
    (banners (effects g) <= banners (effects g'))%nat.
Proof.
  induction n as [| n IH]; intros e g.
  - cbv zeta. change (exec (run_enemy ChasingEnemy.update 0 e) g) with g.
    repeat split; auto.
  - cbv zeta. rewrite run_enemy_S_exec.
    destruct (chasing_update_frame e g) as (Hp & Hw & Hh & Hr & Hb).
    destruct (IH (eval (ChasingEnemy.update e) g) (exec (ChasingEnemy.update e) g))
      as (Hp' & Hw' & Hh' & Hr' & Hb').
    rewrite Hp', Hw', Hh', Hp, Hw, Hh.
    split; [reflexivity |]. split; [reflexivity |]. split; [reflexivity |]. split.
    + intros Hstop. apply Hr'. rewrite Hr, Hstop. reflexivity.
    + rewrite Hb in Hb'. lia.
Qed.

(** X7.  A chaser slower than half its size catches a player that stands
    still clear of the walls: started inside the arena at a distance less
    than [n * speed], within [n] updates it has ended an update on the
    player, so that the game is stopped and a banner drawn; the player
    has not moved. *)
Theorem chaser_catches_player (n : nat) :
  forall (g : Game) (e : ChasingEnemyT),
    player_clear_of_walls g (e_size e) ->
    inside_arena g e ->
    0 < ch_speed e < IZR (e_size e) / 2 ->
    to_player g e < INR n * ch_speed e ->
    let g' := exec (run_enemy ChasingEnemy.update n e) g in
    is_running g' = false /\
    (banners (effects g) < banners (effects g'))%nat /\
    player g' = player g.
Proof.
  induction n as [| n IH]; intros g e Hclear Hin Hs Hd.
  - pose proof (dist_nonneg (e_x e) (e_y e) (Player.x (player g)) (Player.y (player g))).
    unfold to_player in Hd. simpl in Hd. lra.
  - cbv zeta. rewrite run_enemy_S_exec.
    destruct (chasing_update_frame e g) as (Hp & Hw & Hh & Hr & Hb).
    set (e1 := eval (ChasingEnemy.update e) g) in *.
    set (g1 := exec (ChasingEnemy.update e) g) in *.
    destruct (chasing_run_frame n e1 g1) as (Hp' & _ & _ & Hr' & Hb').
    destruct (Rlt_le_dec (to_player g e) (ch_speed e)) as [Hnear | Hfar].
    + (* this update ends on the player *)
      assert (Hhit : Enemy.hits_player e1 g = true)
        by (apply chasing_reaches; assumption).
      rewrite Hhit in Hr, Hb. rewrite andb_false_r in Hr.
      split; [now apply Hr' |]. split; [lia | now rewrite Hp'].
    + destruct (chasing_approaches g e Hclear Hin (conj (proj1 Hs) Hfar))
        as (Hin1 & Hto & Hsz & Hsp). fold e1 in Hin1, Hto, Hsz, Hsp.
      destruct (IH g1 e1) as (Hrun & Hban & Hpl).
      * unfold player_clear_of_walls. now rewrite Hp, Hw, Hh, Hsz.
      * unfold inside_arena. rewrite Hw, Hh. exact Hin1.
      * now rewrite Hsp, Hsz.
      * unfold to_player. rewrite Hp. fold (to_player g e1).
        rewrite Hto, Hsp. rewrite S_INR in Hd. lra.
      * split; [exact Hrun |]. split; [| now rewrite Hpl].
        assert (banners (effects g) <= banners (effects g1))%nat by (rewrite Hb; lia).
        lia.
Qed.

(** A chaser ten units from the player, six updates. *)
Lemma chaser_catches_player_witness :
  is_running (exec (run_enemy ChasingEnemy.update 6 near_chaser) arena_800_500)
  = false.
Proof.
  destruct arena_player_pos as [Hx Hy].
  apply (chaser_catches_player 6 arena_800_500 near_chaser).
  - unfold player_clear_of_walls. rewrite Hx, Hy. simpl. lra.
  - unfold inside_arena, Enemy.half. simpl. lra.
  - simpl. lra.
  - rewrite near_chaser_to_player. simpl. lra.
Defined.

(** ** The player: what an update never does, and reaching home *)

Lemma update_frame (g : Game) :
  let g' := exec Player.update g in
  home g' = home g /\ elements g' = elements g /\
  enemy_generator g' = enemy_generator g /\ scheduled g' = scheduled g /\
  draws g' = draws g /\ screen_width g' = screen_width g /\
  screen_height g' = screen_height g.
Proof.
  unfold exec, Player.update, bind, get, when, Waypoint.is_active.
  destruct (Home.contains _ _ _); simpl; destruct (wp_active (waypoint g)); simpl;
  try (repeat split; fail).
  all: destruct (Py.ltb _ _); repeat split.
Qed.

Lemma repeat_exec_snoc {A : Type} (c : M A) (n : nat) :
  forall g : Game, repeat_exec c (n + 1) g = exec c (repeat_exec c n g).
Proof.
  induction n as [| n IH]; intros g; [reflexivity |].
  cbn [Nat.add repeat_exec]. apply IH.
Qed.

Lemma repeat_update_frame (n : nat) :
  forall g : Game,
    let g' := repeat_exec Player.update n g in
    home g' = home g /\ elements g' = elements g /\
    enemy_generator g' = enemy_generator g /\ scheduled g' = scheduled g /\
    draws g' = draws g /\ screen_width g' = screen_width g /\
    screen_height g' = screen_height g.
Proof.
  induction n as [| n IH]; intros g; [repeat split |].
  cbv zeta. cbn [repeat_exec].
  destruct (update_frame g) as (H1 & H2 & H3 & H4 & H5 & H6 & H7).
  destruct (IH (exec Player.update g)) as (I1 & I2 & I3 & I4 & I5 & I6 & I7).
  rewrite I1, I2, I3, I4, I5, I6, I7. repeat split; assumption.
Qed.

(** X8.  What [Player.update] never does, over any number of calls: it
    never changes the speed of the player nor the target of the waypoint,
    and leaves home, elements, counters and timers alone; and once the
    waypoint is inactive it moves the player no more and does not
    reactivate the waypoint. *)
Theorem player_update_never (g : Game) (n : nat) :
  let g' := repeat_exec Player.update n g in
  (p_speed (player g') = p_speed (player g) /\
   wp_x (waypoint g') = wp_x (waypoint g) /\
   wp_y (waypoint g') = wp_y (waypoint g)) /\
  (wp_active (waypoint g) = false ->
   player g' = player g /\ waypoint g' = waypoint g) /\
  (home g' = home g /\ elements g' = elements g /\
   enemy_generator g' = enemy_generator g /\ scheduled g' = scheduled g).
Proof.
  cbv zeta. destruct (repeat_update_wp n g) as [Hx Hy].
  destruct (repeat_update_frame n g) as (H1 & H2 & H3 & H4 & _).
  split; [split; [apply repeat_update_speed | split; assumption] |].
  split; [apply repeat_update_inactive |]. repeat split; assumption.
Qed.

(** X9.  Clicking well inside home wins the game.  If home contains every
    point within one step of the waypoint, then after
    [ceil (d0 / speed)] updates the player stands inside home, and the
    update after that stops the game and draws the "You Win" banner. *)
Theorem reaching_home_wins (g : Game) :
  let s := p_speed (player g) in
  let n := Z.to_nat (ceil (to_waypoint g / s)) in
  0 < s ->
  wp_active (waypoint g) = true ->
  0 < to_waypoint g ->
  home_covers (home g) (wp_x (waypoint g)) (wp_y (waypoint g)) s ->
  let arrived := repeat_exec Player.update n g in
  let g' := repeat_exec Player.update (n + 1) g in
  Home.contains (home arrived) (Player.x (player arrived))
                (Player.y (player arrived)) = true /\
  is_running g' = false /\
  effects g' = effects arrived ++ win_effects g.
Proof.
  intros s n Hs Ha Hd Hcover arrived g'.
  destruct (ceil_spec (to_waypoint g / s)) as [_ Hc].
  assert (Hq : 0 < to_waypoint g / s) by (apply Rdiv_lt_0_compat; assumption).
  assert (Hc1 : (1 <= ceil (to_waypoint g / s))%Z).
  { assert (0 < IZR (ceil (to_waypoint g / s))) by lra.
    apply lt_IZR in H. lia. }
  destruct (arrival_within n g) as [_ Hnear]; try assumption.
  { unfold n. lia. }
  { split; [assumption |]. unfold n. rewrite INR_IZR_INZ, Z2Nat.id by lia.
    fold s. apply (Rmult_le_compat_r s) in Hc; [| lra].
    replace (to_waypoint g / s * s) with (to_waypoint g) in Hc by (field; lra).
    exact Hc. }
  fold arrived s in Hnear.
  destruct (repeat_update_wp n g) as [Hwx Hwy]. fold arrived in Hwx, Hwy.
  destruct (repeat_update_frame n g) as (Hh & _ & _ & _ & _ & Hw & Hht).
  fold arrived in Hh, Hw, Hht.
  assert (Hin : Home.contains (home arrived) (Player.x (player arrived))
                              (Player.y (player arrived)) = true).
  { unfold to_waypoint in Hnear. rewrite distance_is_dist, Hwx, Hwy in Hnear.
    destruct (dist_coordinates (Turtle.xcor (p_turtle (player arrived)))
                (Turtle.ycor (p_turtle (player arrived)))
                (wp_x (waypoint g)) (wp_y (waypoint g))) as [Hx Hy].
    apply Rabs_le_bounds in Hx. apply Rabs_le_bounds in Hy.
    destruct Hcover as [[Hx1 Hx2] [Hy1 Hy2]].
    rewrite Hh. apply contains_true_iff. unfold Player.x, Player.y. lra. }
  split; [exact Hin |].
  unfold g'. rewrite repeat_exec_snoc. fold arrived.
  rewrite update_is_running, update_effects, Hin.
  split; [reflexivity |]. unfold win_effects. now rewrite Hw, Hht.
Qed.

(** A click on the centre of home in [arena_800_500]. *)
Lemma reaching_home_wins_witness :
  let g := click 700 250 arena_800_500 in
  is_running (repeat_exec Player.update
                (Z.to_nat (ceil (to_waypoint g / p_speed (player g))) + 1) g)
  = false.
Proof.
  intros g.
  assert (Hs : 0 < p_speed (player g)) by (simpl; lra).
  assert (Ha : wp_active (waypoint g) = true) by reflexivity.
  assert (Hd : 0 < to_waypoint g).
  { apply distance_pos. left. simpl. lra. }
  assert (Hc : home_covers (home g) (wp_x (waypoint g)) (wp_y (waypoint g))
                           (p_speed (player g))).
  { change (home g) with (home arena_800_500). rewrite arena_home.
    unfold home_covers. simpl. lra. }
  exact (proj1 (proj2 (reaching_home_wins g Hs Ha Hd Hc))).
Defined.

(** X10.  The session built by [init_game]: the player starts inside
    home exactly when the arena is 140 to 160 wide; it does not move
    before the first click; no element has been added and the first batch
    is scheduled. *)
Theorem init_game_start (width height lvl : Z) (entropy : nat -> Z) :
  let g := init_game width height lvl entropy in
  (Home.contains (home g) (Player.x (player g)) (Player.y (player g)) = true
   <-> (140 <= width <= 160)%Z) /\
  (forall n : nat, player (repeat_exec Player.update n g) = player g) /\
  (wp_active (waypoint g) = false /\ elements g = [] /\ scheduled g = [100%Z]).
Proof.
  cbv zeta. split; [| split].
  - rewrite contains_true_iff. unfold init_game, Player.x, Player.y. simpl.
    rewrite minus_IZR. split.
    + intros [[H1 H2] _].
      assert (IZR 140 <= IZR width) by lra. assert (IZR width <= IZR 160) by lra.
      split; now apply le_IZR.
    + intros [H1 H2]. apply IZR_le in H1, H2. lra.
  - intros n. now apply repeat_update_inactive.
  - repeat split.
Qed.

(** ** Edges of containment and collision; counting the enemies *)

(** X11.  The boundary of home is inside: a home of size 0 or more
    contains its centre and its corners, a home of negative size contains
    no point, and a point a full size to the right of the centre is
    outside. *)
Theorem home_boundary (h : HomeT) :
  let half := IZR (home_size h) / 2 in
  ((home_size h < 0)%Z -> forall x y : R, Home.contains h x y = false) /\
  ((0 <= home_size h)%Z ->
   Home.contains h (home_x h) (home_y h) = true /\
   Home.contains h (home_x h - half) (home_y h - half) = true /\
   Home.contains h (home_x h + half) (home_y h + half) = true) /\
  ((0 < home_size h)%Z ->
   Home.contains h (home_x h + IZR (home_size h)) (home_y h) = false).
Proof.
  cbv zeta. split; [| split].
  - intros Hneg x y. apply IZR_lt in Hneg. apply not_true_is_false.
    rewrite contains_true_iff. lra.
  - intros Hpos. apply IZR_le in Hpos. rewrite !contains_true_iff. lra.
  - intros Hpos. apply IZR_lt in Hpos. apply not_true_is_false.
    rewrite contains_true_iff. lra.
Qed.

(** A corner, a point outside, and a home of negative size. *)
Lemma home_boundary_witness :
  Home.contains (mkHome 700 250 20) 710 260 = true /\
  Home.contains (mkHome 700 250 20) 720 250 = false /\
  Home.contains (mkHome 700 250 (-2)) 700 250 = false.
Proof.
  destruct (home_boundary (mkHome 700 250 20)) as (_ & Hin & Hout).
  destruct (Hin ltac:(simpl; lia)) as (_ & _ & Hc). simpl in Hc.
  specialize (Hout ltac:(simpl; lia)). simpl in Hout.
  split; [| split].
  - replace 710 with (700 + 20 / 2) by lra. replace 260 with (250 + 20 / 2) by lra.
    exact Hc.
  - replace 720 with (700 + 20) by lra. exact Hout.
  - apply (proj1 (home_boundary (mkHome 700 250 (-2)))). simpl. lia.
Defined.

(** X12.  The boundary of an enemy is outside: a player on the line of
    any of the four sides of the bounding square is not hit, an enemy of
    size 0 or less hits nothing, and an enemy of positive size centred on
    the player hits it. *)
Theorem collision_boundary (e : EnemyT) (g : Game) :
  ((e_size e <= 0)%Z -> Enemy.hits_player e g = false) /\
  (Player.x (player g) = e_x e - Enemy.half e \/
   Player.x (player g) = e_x e + Enemy.half e \/
   Player.y (player g) = e_y e - Enemy.half e \/
   Player.y (player g) = e_y e + Enemy.half e ->
   Enemy.hits_player e g = false) /\
  ((0 < e_size e)%Z ->
   Player.x (player g) = e_x e -> Player.y (player g) = e_y e ->
   Enemy.hits_player e g = true).
Proof.
  split; [| split].
  - intros Hs. apply IZR_le in Hs. apply not_true_is_false.
    rewrite hits_player_true_iff. unfold Enemy.half. lra.
  - intros H. apply not_true_is_false. rewrite hits_player_true_iff.
    destruct H as [H | [H | [H | H]]]; rewrite H; lra.
  - intros Hs Hx Hy. apply IZR_lt in Hs. apply hits_player_true_iff.
    unfold Enemy.half. rewrite Hx, Hy. lra.
Qed.

(** A player on the left side of a chaser, and under its centre. *)
Lemma collision_boundary_witness :
  Enemy.hits_player (mkEnemy 65 250 30 "skyblue") arena_800_500 = false /\
  Enemy.hits_player (mkEnemy 50 250 30 "skyblue") arena_800_500 = true.
Proof.
  destruct arena_player_pos as [Hx Hy].
  split.
  - apply (proj1 (proj2 (collision_boundary _ arena_800_500))).
    left. rewrite Hx. unfold Enemy.half. simpl. lra.
  - apply (proj2 (proj2 (collision_boundary _ arena_800_500))).
    + simpl. lia.
    + rewrite Hx. reflexivity.
    + rewrite Hy. reflexivity.
Defined.

Lemma count_kind_app (kind : Element -> bool) (l1 l2 : list Element) :
  count_kind kind (l1 ++ l2) = (count_kind kind l1 + count_kind kind l2)%nat.
Proof. unfold count_kind. now rewrite filter_app, length_app. Qed.

Lemma create_enemy_counted (g : Game) :
  counted 1 g (exec EnemyGenerator.create_enemy g).
Proof.
  destruct (create_enemy_counts g) as (Hf & Hs & _).
  unfold counted. rewrite create_enemy_elements, !count_kind_app, Hf, Hs.
  unfold batch_of.
  destruct (fencing_enemy_count (enemy_generator g) <? 7)%Z;
  destruct (sin_enemy_count (enemy_generator g) <? 10)%Z;
  cbn; repeat split; lia.
Qed.

Lemma batches_counted (n : nat) :
  forall g g' : Game, EnemyGenerator.batches n g = Some g' -> counted n g g'.
Proof.
  induction n as [| n IH]; intros g g' H.
  - injection H as <-. unfold counted. repeat split; lia.
  - cbn [EnemyGenerator.batches] in H. unfold EnemyGenerator.fire in H.
    destruct (scheduled g) as [| d rest] eqn:Hsch; [discriminate H |].
    pose proof (create_enemy_counted (with_scheduled rest g)) as H1.
    apply IH in H. unfold counted in *. cbn [elements enemy_generator with_scheduled] in H1.
    destruct H1 as (A1 & A2 & A3 & A4 & A5). destruct H as (B1 & B2 & B3 & B4 & B5).
    repeat split; lia.
Qed.

(** X13.  The counters count.  Over any [n] batches, from any state of
    the game, the fencing and sine counters grow by exactly the number of
    fencing and sine enemies added, and [n] demo enemies, [n] random
    walkers and [n] chasers are added; the generator adds nothing
    else. *)
Theorem generator_counts_enemies (n : nat) (g g' : Game) :
  EnemyGenerator.batches n g = Some g' ->
  counted n g g' /\
  List.length (elements g') =
    (count_kind is_demo (elements g') + count_kind is_randomwalk (elements g')
     + count_kind is_chasing (elements g') + count_kind is_fencing (elements g')
     + count_kind is_sin (elements g'))%nat.
Proof.
  intros H. split; [now apply batches_counted |].
  unfold count_kind. induction (elements g') as [| el l IHl]; [reflexivity |].
  destruct el; cbn; lia.
Qed.

(** The chasers of the eleven batches of [arena_800_500]. *)
Lemma generator_counts_enemies_witness :
  exists g11,
    EnemyGenerator.batches 11 arena_800_500 = Some g11 /\
    count_kind is_chasing (elements g11) = 11%nat.
Proof.
  destruct (batches_of_fresh arena_800_500 arena_fresh)
    as (_ & (g10 & g11 & _ & _ & _ & Hb11 & _) & _).
  exists g11. split; [exact Hb11 |].
  exact (proj1 (proj2 (proj2 (proj1 (generator_counts_enemies 11 _ _ Hb11))))).
Defined.

(** X14.  A fresh generator in a game without elements adds fifty
    enemies in all: 11 demo enemies, 11 random walkers, 11 chasers, 7
    fencing enemies and 10 sine enemies, after which no batch fires. *)
Theorem fifty_enemies (g : Game) (d : Z) :
  elements g = [] ->
  sin_enemy_count (enemy_generator g) = 0%Z ->
  fencing_enemy_count (enemy_generator g) = 0%Z ->
  scheduled g = [d] ->
  exists g11,
    EnemyGenerator.batches 11 g = Some g11 /\
    (forall n : nat, (11 < n)%nat -> EnemyGenerator.batches n g = None) /\
    count_kind is_demo (elements g11) = 11%nat /\
    count_kind is_randomwalk (elements g11) = 11%nat /\
    count_kind is_chasing (elements g11) = 11%nat /\
    count_kind is_fencing (elements g11) = 7%nat /\
    count_kind is_sin (elements g11) = 10%nat /\
    List.length (elements g11) = 50%nat.
Proof.
  intros He Hs Hf Hd.
  assert (Hg : generator_at 0 g).
  { split; [exact Hs |]. split; [exact Hf |]. exists d. now split. }
  destruct (batches_of_fresh g Hg)
    as (_ & (g10 & g11 & _ & _ & _ & Hb11 & (Hs11 & Hf11 & _) & Hel) & Hnone).
  exists g11. split; [exact Hb11 |]. split; [exact Hnone |].
  destruct (batches_counted 11 g g11 Hb11) as (C1 & C2 & C3 & C4 & C5).
  rewrite He, Hs, Hf, Hs11, Hf11 in *. cbn in C1, C2, C3, C4, C5.
  assert (Hlen : List.length (elements g11) =
    (count_kind is_demo (elements g11) + count_kind is_randomwalk (elements g11)
     + count_kind is_chasing (elements g11) + count_kind is_fencing (elements g11)
     + count_kind is_sin (elements g11))%nat).
  { unfold count_kind. clear. induction (elements g11) as [| el l IHl]; [reflexivity |].
    destruct el; cbn; lia. }
  repeat split; lia.
Qed.

(** The fifty enemies of [arena_800_500]. *)
Lemma fifty_enemies_witness :
  exists g11,
    EnemyGenerator.batches 11 arena_800_500 = Some g11 /\
    List.length (elements g11) = 50%nat.
Proof.
  destruct (fifty_enemies arena_800_500 100 eq_refl eq_refl eq_refl eq_refl)
    as (g11 & Hb & _ & _ & _ & _ & _ & _ & Hlen).
  exists g11. split; [exact Hb | exact Hlen].
Defined.

(** ** Demo and sine enemies; stacked signals *)

(** X2.  A demo enemy moves by (+1, +1) on every update whatever its
    direction flag: after [n] updates it is at [(x + n, y + n)], so it
    leaves the arena for good.  The flag only changes sign, and in one
    update it flips exactly when one of the two axes, not both, is at or
    over an arena edge. *)
Theorem demo_enemy_walks_out (g : Game) (e : DemoEnemyT) :
  (let e' := eval (DemoEnemy.update e) g in
   let crosses_x :=
     Py.geb (e_x e + 1) (IZR (screen_width g)) || Py.leb (e_x e + 1) 0 in
   let crosses_y :=
     Py.geb (e_y e + 1) (IZR (screen_height g)) || Py.leb (e_y e + 1) 0 in
   demo_direction e' =
     (if xorb crosses_x crosses_y then - demo_direction e else demo_direction e)%Z) /\
  (forall n : nat,
     let en := eval (run_enemy DemoEnemy.update n e) g in
     e_x en = e_x e + INR n /\ e_y en = e_y e + INR n /\ e_size en = e_size e /\
     (demo_direction en = demo_direction e \/
      demo_direction en = (- demo_direction e)%Z)) /\
  (forall n : nat,
     IZR (screen_width g) - e_x e < INR n ->
     IZR (screen_width g) < e_x (eval (run_enemy DemoEnemy.update n e) g)).
Proof.
  split; [| split].
  - destruct (demo_update_eval e g) as (_ & _ & _ & _ & Hd). exact Hd.
  - intros n. apply demo_run.
  - intros n Hn. destruct (demo_run n e g) as (Hx & _). rewrite Hx. lra.
Qed.

(** The demo enemy of a batch, 701 updates later. *)
Lemma demo_enemy_walks_out_witness :
  IZR (screen_width arena_800_500)
  < e_x (eval (run_enemy DemoEnemy.update 701 demo_spawn) arena_800_500).
Proof.
  apply (proj2 (proj2 (demo_enemy_walks_out arena_800_500 demo_spawn))).
  rewrite INR_IZR_INZ. simpl. lra.
Defined.

Lemma sin_move_fields (e : SinEnemyT) :
  let m := SinEnemy.move e in
  e_x m = e_x e + sin_speed e /\
  e_y m = e_y e + sin_amplitude e * sin (sin_frequency e * (e_x e + sin_speed e)) /\
  e_size m = e_size e /\ sin_speed m = sin_speed e /\
  sin_amplitude m = sin_amplitude e /\ sin_frequency m = sin_frequency e.
Proof. repeat split. Qed.

Lemma sin_clamp_fields (g : Game) (m : SinEnemyT) :
  let c := SinEnemy.clamp g m in
  (e_size c = e_size m /\ sin_amplitude c = sin_amplitude m /\
   sin_frequency c = sin_frequency m) /\
  e_x c = (if Py.ltb (e_x m - Enemy.half m) 0 then Enemy.half m
           else if Py.gtb (e_x m + Enemy.half m) (IZR (screen_width g))
           then IZR (screen_width g) - Enemy.half m
           else e_x m) /\
  sin_speed c = (if Py.ltb (e_x m - Enemy.half m) 0 then sin_speed m * -1
                 else if Py.gtb (e_x m + Enemy.half m) (IZR (screen_width g))
                 then sin_speed m * -1
                 else sin_speed m).
Proof.
  unfold SinEnemy.clamp.
  destruct (Py.ltb (e_x m - Enemy.half m) 0);
  [| destruct (Py.gtb (e_x m + Enemy.half m) (IZR (screen_width g)))];
  match goal with
  | |- context [Py.ltb (e_y ?a - Enemy.half ?a) 0] =>
      change (e_y a) with (e_y m); change (Enemy.half a) with (Enemy.half m)
  end;
  (destruct (Py.ltb (e_y m - Enemy.half m) 0);
   [| destruct (Py.gtb (e_y m + Enemy.half m) (IZR (screen_height g)))]);
  repeat split.
Qed.

(** One update of a sine enemy: the bounce on x. *)
Lemma sin_update_bounce (e : SinEnemyT) (g : Game) :
  let m := SinEnemy.move e in
  let e' := eval (SinEnemy.update e) g in
  (e_size e' = e_size e /\ sin_amplitude e' = sin_amplitude e /\
   sin_frequency e' = sin_frequency e) /\
  (e_x m - Enemy.half e < 0 ->
   e_x e' = Enemy.half e /\ sin_speed e' = - sin_speed e) /\
  (0 <= e_x m - Enemy.half e -> IZR (screen_width g) < e_x m + Enemy.half e ->
   e_x e' = IZR (screen_width g) - Enemy.half e /\ sin_speed e' = - sin_speed e) /\
  (0 <= e_x m - Enemy.half e -> e_x m + Enemy.half e <= IZR (screen_width g) ->
   e_x e' = e_x e + sin_speed e /\ sin_speed e' = sin_speed e).
Proof.
  intros m e'.
  assert (He' : e' = SinEnemy.clamp g m) by apply sin_update_eval.
  destruct (sin_clamp_fields g m) as (Hc & Hx & Hs). rewrite <- He' in Hc, Hx, Hs.
  change (Enemy.half m) with (Enemy.half e) in *.
  change (sin_speed m) with (sin_speed e) in *.
  split; [exact Hc |]. rewrite Hx, Hs.
  split; [| split].
  - intros L. replace (Py.ltb (e_x m - Enemy.half e) 0) with true
      by (symmetry; now apply ltb_true_iff).
    split; [reflexivity | ring].
  - intros L R. replace (Py.ltb (e_x m - Enemy.half e) 0) with false
      by (symmetry; now apply ltb_false_iff).
    replace (Py.gtb (e_x m + Enemy.half e) (IZR (screen_width g))) with true
      by (symmetry; now apply gtb_true_iff).
    split; [reflexivity | ring].
  - intros L R. replace (Py.ltb (e_x m - Enemy.half e) 0) with false
      by (symmetry; now apply ltb_false_iff).
    replace (Py.gtb (e_x m + Enemy.half e) (IZR (screen_width g))) with false
      by (symmetry; now apply gtb_false_iff).
    split; reflexivity.
Qed.

(** X15.  A sine enemy bounces on the left and right walls: when the moved
    enemy is over the left edge, or else over the right edge, it is put
    back on that edge and its speed changes sign; otherwise it advances
    by its speed.  Its y changes by at most the amplitude before
    clamping.  Over any number of updates the size, amplitude and
    frequency are unchanged and the speed keeps its absolute value. *)
Theorem sin_enemy_bounces (g : Game) (e : SinEnemyT) :
  (let m := SinEnemy.move e in
   let e' := eval (SinEnemy.update e) g in
   Rabs (e_y m - e_y e) <= Rabs (sin_amplitude e) /\
   (e_x m - Enemy.half e < 0 ->
    e_x e' = Enemy.half e /\ sin_speed e' = - sin_speed e) /\
   (0 <= e_x m - Enemy.half e -> IZR (screen_width g) < e_x m + Enemy.half e ->
    e_x e' = IZR (screen_width g) - Enemy.half e /\ sin_speed e' = - sin_speed e) /\
   (0 <= e_x m - Enemy.half e -> e_x m + Enemy.half e <= IZR (screen_width g) ->
    e_x e' = e_x e + sin_speed e /\ sin_speed e' = sin_speed e)) /\
  (forall n : nat,
     let en := eval (run_enemy SinEnemy.update n e) g in
     e_size en = e_size e /\ sin_amplitude en = sin_amplitude e /\
     sin_frequency en = sin_frequency e /\
     Rabs (sin_speed en) = Rabs (sin_speed e)).
Proof.
  split.
  - cbv zeta. destruct (sin_update_bounce e g) as (_ & H1 & H2 & H3).
    split; [| split; [exact H1 | split; [exact H2 | exact H3]]].
    destruct (sin_move_fields e) as (_ & Hy & _). rewrite Hy.
    replace (e_y e + sin_amplitude e * sin (sin_frequency e * (e_x e + sin_speed e))
             - e_y e)
      with (sin_amplitude e * sin (sin_frequency e * (e_x e + sin_speed e))) by ring.
    rewrite Rabs_mult. rewrite <- (Rmult_1_r (Rabs (sin_amplitude e))) at 2.
    apply Rmult_le_compat_l; [apply Rabs_pos |].
    apply Rabs_le. destruct (SIN_bound (sin_frequency e * (e_x e + sin_speed e))).
    split; assumption.
  - intros n. revert e g. induction n as [| n IH]; intros e g.
    + cbv zeta. change (eval (run_enemy SinEnemy.update 0 e) g) with e. repeat split.
    + cbv zeta. rewrite run_enemy_S_eval.
      destruct (sin_update_bounce e g) as ((Hs & Ha & Hf) & H1 & H2 & H3).
      destruct (IH (eval (SinEnemy.update e) g) (exec (SinEnemy.update e) g))
        as (Hs' & Ha' & Hf' & Hv').
      rewrite Hs', Ha', Hf', Hv', Hs, Ha, Hf.
      split; [reflexivity |]. split; [reflexivity |]. split; [reflexivity |].
      destruct (Rlt_le_dec (e_x (SinEnemy.move e) - Enemy.half e) 0) as [L | L].
      * destruct (H1 L) as [_ ->]. apply Rabs_Ropp.
      * destruct (Rlt_le_dec (IZR (screen_width g))
                    (e_x (SinEnemy.move e) + Enemy.half e)) as [R | R].
        -- destruct (H2 L R) as [_ ->]. apply Rabs_Ropp.
        -- destruct (H3 L R) as [_ ->]. reflexivity.
Qed.

(** A sine enemy spawned on the left edge bounces at once. *)
Lemma sin_enemy_bounces_witness :
  let e := sin_spawn arena_800_500 in
  e_x (eval (SinEnemy.update e) arena_800_500) = Enemy.half e /\
  sin_speed (eval (SinEnemy.update e) arena_800_500) = - sin_speed e.
Proof.
  intros e.
  apply (proj1 (proj2 (proj1 (sin_enemy_bounces arena_800_500 e)))).
  unfold e, sin_spawn, Py.randint_of, Enemy.half. simpl entropy. simpl.
  change (0 mod 801)%Z with 0%Z. simpl. lra.
Defined.

(** X16.  In an arena of width 0 or more, every sine enemy of a batch is
    spawned with [0 <= x <= screen_width], at a quarter of the height,
    with size 20 and speed 1. *)
Theorem sin_spawn_in_arena (g : Game) (e : SinEnemyT) :
  (0 <= screen_width g)%Z ->
  In (ElSin e) (spawned g) ->
  0 <= e_x e <= IZR (screen_width g) /\ e_y e = IZR (screen_height g) / 4 /\
  e_size e = 20%Z /\ sin_speed e = 1.
Proof.
  intros Hw Hin. rewrite spawned_batch in Hin. unfold batch_of in Hin.
  assert (He : e = sin_spawn g).
  { destruct (fencing_enemy_count (enemy_generator g) <? 7)%Z;
    destruct (sin_enemy_count (enemy_generator g) <? 10)%Z; simpl in Hin;
    repeat (destruct Hin as [Hin | Hin]; try discriminate Hin; try contradiction);
    now inversion Hin. }
  subst e. split; [apply (IZR_randint_of_range (screen_width g)); exact Hw |].
  repeat split.
Qed.

(** The sine enemy of the first batch of [small_arena]. *)
Lemma sin_spawn_in_arena_witness :
  exists e, In (ElSin e) (spawned small_arena) /\ 0 <= e_x e <= 400.
Proof.
  exists (sin_spawn small_arena).
  assert (Hin : In (ElSin (sin_spawn small_arena)) (spawned small_arena)).
  { rewrite spawned_batch. simpl. tauto. }
  split; [exact Hin |].
  exact (proj1 (sin_spawn_in_arena small_arena _ ltac:(simpl; lia) Hin)).
Defined.

(** X17.  The terminal signals have no precedence: a loss signalled after
    a win, or a win after a loss, stops the game again and draws its
    banner after the first one; elements, timers, player and waypoint are
    as before. *)
Theorem terminal_signals_stack (g : Game) :
  let won_then_lost :=
    exec TurtleAdventureGame.game_over_lose (exec TurtleAdventureGame.game_over_win g) in
  let lost_then_won :=
    exec TurtleAdventureGame.game_over_win (exec TurtleAdventureGame.game_over_lose g) in
  effects won_then_lost = effects g ++ win_effects g ++ lose_effects g /\
  effects lost_then_won = effects g ++ lose_effects g ++ win_effects g /\
  is_running won_then_lost = false /\ is_running lost_then_won = false /\
  (elements won_then_lost = elements g /\ scheduled won_then_lost = scheduled g /\
   player won_then_lost = player g /\ waypoint won_then_lost = waypoint g).
Proof.
  cbv zeta. rewrite !game_over_lose_exec, !game_over_win_exec. simpl.
  rewrite <- !app_assoc. repeat split.
Qed.

(** ** Instances of the properties above *)

(** The first update of the fencing enemy of the first batch. *)
Lemma enemy_update_collision_witness :
  exists e',
    eval (FencingEnemy.update (fencing_spawn arena_800_500)) arena_800_500 = Some e' /\
    elements (exec (FencingEnemy.update (fencing_spawn arena_800_500)) arena_800_500)
    = elements arena_800_500.
Proof.
  eexists.
  assert (H : eval (FencingEnemy.update (fencing_spawn arena_800_500)) arena_800_500
              = Some (fencing_moved 1 0 (fencing_spawn arena_800_500))).
  { rewrite fencing_update_eval. reflexivity. }
  split; [exact H |].
  destruct (proj2 (proj2 (proj2 (proj2 (enemy_update_collision arena_800_500))))
              _ _ H) as (_ & _ & (He & _) & _).
  exact He.
Defined.

(** Before any click the player of [arena_800_500] stays put. *)
Lemma player_update_never_witness :
  player (repeat_exec Player.update 25 arena_800_500) = player arena_800_500.
Proof.
  exact (proj1 (proj1 (proj2 (player_update_never arena_800_500 25)) eq_refl)).
Defined.

(** An arena 150 wide starts with the player inside home. *)
Lemma init_game_start_witness :
  let g := init_game 150 500 1 (fun _ => 0%Z) in
  Home.contains (home g) (Player.x (player g)) (Player.y (player g)) = true.
Proof.
  apply (proj1 (init_game_start 150 500 1 (fun _ => 0%Z))). lia.
Defined.
